(** * mmworkbench.models.helpers

    A shallow embedding of [src/mmworkbench/models/helpers.py] and the
    properties of its registry, text, scoring, gazetteer and decorator
    helpers.

    Conventions of the embedding
    - Python [str] is [string], a character is its code point. The digits
      are the characters ['0'] .. ['9']: this is what both [str.isdigit] and
      the regular expression [\d] mean on ASCII text. Beyond ASCII Python
      knows further digits, and the two disagree on some of them, so the
      general properties of [mask_numerics] are stated for ASCII tokens
      ([is_ascii]).
    - [repr] of a string is the string between apostrophes, which is what
      Python 3 prints for printable ASCII text without apostrophe or
      backslash ([repr_plain]).
    - Python [int] is [Z]; [list] is [list]; a [dict] with string keys is a
      [gmap string _]; a [set] of strings is a [gset string].
    - A call that may raise returns a [result]: [Ok v] or [Raise e]. *)

From Stdlib Require Import QArith Ascii.
From stdpp Require Import gmap strings list fin_maps.

Set Warnings "-clear-no-such-hyp".

Open Scope Z_scope.

(** ** Exceptions and fallible results *)

Inductive exn :=
  | ValueError (msg : string)
  | KeyError (key : string)
  | IndexError
  | TypeError
  | OtherError (name : string).

Inductive result (A : Type) :=
  | Ok (a : A)
  | Raise (e : exn).

Arguments Ok {A} a.
Arguments Raise {A} e.

Definition bind {A B} (r : result A) (k : A → result B) : result B :=
  match r with
  | Ok a => k a
  | Raise e => Raise e
  end.

Notation "x ←! r ; k" := (bind r (λ x, k))
  (at level 100, r at next level, k at level 200, right associativity).

(** [l[i]] on a Python list: a negative index counts from the end, and an
    index that is still out of range raises [IndexError]. *)
Definition py_getitem {A} (l : list A) (i : Z) : result A :=
  let n := Z.of_nat (length l) in
  let j := if i <? 0 then i + n else i in
  if (j <? 0) || (n <=? j) then Raise IndexError
  else match l !! Z.to_nat j with
       | Some x => Ok x
       | None => Raise IndexError
       end.

(** [range(start, stop)] *)
Definition py_range (start stop : Z) : list Z := seqZ start (stop - start).

(** [sep.join(l)] *)
Fixpoint join (sep : string) (l : list string) : string :=
  match l with
  | [] => ""
  | [x] => x
  | x :: rest => x +:+ sep +:+ join sep rest
  end.

(** [repr(s)] of a string without quotes or escapes: for a string of
    printable ASCII characters other than the apostrophe and the backslash,
    Python 3 prints the string between apostrophes. *)
Definition repr (s : string) : string := "'" +:+ s +:+ "'".

(** ** Constants *)

Definition GAZETTEER_RSC : string := "gazetteers".
Definition QUERY_FREQ_RSC : string := "q_freq".
Definition SYS_TYPES_RSC : string := "sys_types".
Definition WORD_FREQ_RSC : string := "w_freq".
Definition WORD_NGRAM_FREQ_RSC : string := "w_ngram_freq".
Definition CHAR_NGRAM_FREQ_RSC : string := "c_ngram_freq".
Definition OUT_OF_BOUNDS_TOKEN : string := "<$>".

(** ** Text helpers *)

(** The digits of ASCII text, ['0'] .. ['9']. *)
Definition is_digit (c : ascii) : bool :=
  let n := nat_of_ascii c in (48 <=? n)%nat && (n <=? 57)%nat.

Fixpoint string_forall (p : ascii → bool) (s : string) : bool :=
  match s with
  | EmptyString => true
  | String c rest => p c && string_forall p rest
  end.

Fixpoint string_map (f : ascii → ascii) (s : string) : string :=
  match s with
  | EmptyString => EmptyString
  | String c rest => String (f c) (string_map f rest)
  end.

(** [s.isdigit()] on ASCII text: every character is a digit and there is
    at least one. *)
Definition isdigit (s : string) : bool :=
  match s with
  | EmptyString => false
  | String _ _ => string_forall is_digit s
  end.

(** [re.sub(r'\d', '8', s)] on ASCII text. *)
Definition re_sub_digit_8 (s : string) : string :=
  string_map (λ c, if is_digit c then "8"%char else c) s.

Definition mask_numerics (token : string) : string :=
  if isdigit token then "#NUM" else re_sub_digit_8 token.

(** ASCII text: every character has a code point below 128. On such text
    the digits of [str.isdigit] and of [\d] are exactly ['0'] .. ['9']. *)
Definition is_ascii (s : string) : bool :=
  string_forall (λ c, (nat_of_ascii c <? 128)%nat) s.

Fixpoint get_ngram_loop (tokens : list string) (indices : list Z)
    (ngram_tokens : list string) : result (list string) :=
  match indices with
  | [] => Ok ngram_tokens
  | index :: rest =>
      token ←! (if (index <? 0) || (index >=? Z.of_nat (length tokens))
                then Ok OUT_OF_BOUNDS_TOKEN
                else py_getitem tokens index);
      get_ngram_loop tokens rest (ngram_tokens ++ [token])
  end.

Definition get_ngram (tokens : list string) (start length : Z) : result string :=
  ngram_tokens ←! get_ngram_loop tokens (py_range start (start + length)) [];
  Ok (join " " ngram_tokens).

(** ** Scoring helpers *)

(** A Python number as the scoring functions return it: the [int] [0], or the
    [float] quotient [float(a) / float(b)], kept as the exact rational it
    denotes. *)
Inductive pynum :=
  | PyInt (z : Z)
  | PyFloat (q : Q).

(** [float(a) / float(b)] for a positive [b]. *)
Definition float_div (a b : nat) : Q := Z.of_nat a # Pos.of_nat b.

(** A label sequence: the tags of one example. *)
Definition label_seq := list string.

Definition sequence_accuracy_scoring (y_true y_pred : list label_seq) : pynum :=
  let total := length y_true in
  if (total =? 0)%nat then PyInt 0
  else
    let matches :=
      sum_list ((λ _, 1%nat) <$>
                filter (λ p, p.1 = p.2) (zip y_true y_pred)) in
    PyFloat (float_div matches total).

Definition sequence_tag_accuracy_scoring (y_true y_pred : list label_seq) : pynum :=
  let y_true_flat := concat y_true in
  let y_pred_flat := concat y_pred in
  let total := length y_true_flat in
  if (total =? 0)%nat then PyInt 0
  else
    let matches :=
      sum_list ((λ _, 1%nat) <$>
                filter (λ p, p.1 = p.2) (zip y_true_flat y_pred_flat)) in
    PyFloat (float_div matches total).

(** Modelled from the spec: the entity annotations of [core], which the
    module only reads: an annotation has an entity with a type, a span of
    start and end offsets, and a text. The entity also carries a role, which
    the comparison below never looks at. *)
Record Span := { span_start : Z; span_end : Z }.

Record Entity := { type : string; role : option string }.

Record QueryEntity := { entity : Entity; span : Span; text : string }.

#[global] Instance Span_eq_dec : EqDecision Span.
Proof. solve_decision. Defined.

Fixpoint entity_seqs_equal_loop (pairs : list (QueryEntity * QueryEntity)) : bool :=
  match pairs with
  | [] => true
  | (expected_entity, predicted_entity) :: rest =>
      if bool_decide (type (entity expected_entity) ≠ type (entity predicted_entity))
      then false
      else if bool_decide (span expected_entity ≠ span predicted_entity)
      then false
      else if bool_decide (text expected_entity ≠ text predicted_entity)
      then false
      else entity_seqs_equal_loop rest
  end.

Definition entity_seqs_equal (expected predicted : list QueryEntity) : bool :=
  if bool_decide (length expected ≠ length predicted) then false
  else entity_seqs_equal_loop (zip expected predicted).

(** ** Registries and factories *)

(** Modelled from the spec: a configuration object, of which the module
    reads the [model_type] and [label_type] attributes only. *)
Record ModelConfig := { model_type : string; label_type : string }.

(** [try: body except KeyError: handler] *)
Definition try_except_KeyError {A} (body : result A) (handler : result A) : result A :=
  match body with
  | Raise (KeyError _) => handler
  | r => r
  end.

(** [d[k]] on a dict *)
Definition dict_getitem {V} (d : gmap string V) (k : string) : result V :=
  match d !! k with
  | Some v => Ok v
  | None => Raise (KeyError k)
  end.

Section registries.
(** What the registered classes build; opaque to this module. *)
Context {Model LabelEncoder FeatureExtractor : Type}.

(** A registered class is called with the configuration and may raise. *)
Definition model_class := ModelConfig → result Model.
Definition label_class := ModelConfig → result LabelEncoder.

(** The three process-wide maps. *)
Record registries := {
  MODEL_MAP : gmap string model_class;
  FEATURE_MAP : gmap string (gmap string FeatureExtractor);
  LABEL_MAP : gmap string label_class
}.

Definition create_model (config : ModelConfig) (σ : registries) : result Model :=
  try_except_KeyError
    (cls ←! dict_getitem (MODEL_MAP σ) (model_type config); cls config)
    (let msg := "Invalid model configuration: Unknown model type " in
     Raise (ValueError (msg +:+ repr (model_type config)))).

Definition get_feature_extractor (example_type name : string) (σ : registries)
    : result FeatureExtractor :=
  features ←! dict_getitem (FEATURE_MAP σ) example_type;
  dict_getitem features name.

Definition get_label_encoder (config : ModelConfig) (σ : registries)
    : result LabelEncoder :=
  cls ←! dict_getitem (LABEL_MAP σ) (label_type config); cls config.

(** The registration functions return the outcome of the call together
    with the registries after it. *)
Definition register_model (model_type : string) (model_class : model_class)
    (σ : registries) : result unit * registries :=
  if bool_decide (model_type ∈ dom (MODEL_MAP σ))
  then (Raise (ValueError ("Model " +:+ repr model_type +:+ " is already registered.")), σ)
  else (Ok (),
        {| MODEL_MAP := <[model_type := model_class]> (MODEL_MAP σ);
           FEATURE_MAP := FEATURE_MAP σ;
           LABEL_MAP := LABEL_MAP σ |}).

Definition register_features (example_type : string)
    (features : gmap string FeatureExtractor)
    (σ : registries) : result unit * registries :=
  if bool_decide (example_type ∈ dom (FEATURE_MAP σ))
  then
    let msg := "Features for example type " +:+ repr example_type
               +:+ " are already registered." in
    (Raise (ValueError msg), σ)
  else (Ok (),
        {| MODEL_MAP := MODEL_MAP σ;
           FEATURE_MAP := <[example_type := features]> (FEATURE_MAP σ);
           LABEL_MAP := LABEL_MAP σ |}).

Definition register_label (label_type : string) (label_encoder : label_class)
    (σ : registries) : result unit * registries :=
  if bool_decide (label_type ∈ dom (LABEL_MAP σ))
  then
    let msg := "Label encoder for label type " +:+ repr label_type
               +:+ " is already registered." in
    (Raise (ValueError msg), σ)
  else (Ok (),
        {| MODEL_MAP := MODEL_MAP σ;
           FEATURE_MAP := FEATURE_MAP σ;
           LABEL_MAP := <[label_type := label_encoder]> (LABEL_MAP σ) |}).
End registries.

Arguments registries : clear implicits.

(** ** The resource-requirement decorator *)

(** A feature-extractor function object: its name and, when the attribute
    has been set, its [requirements] set. *)
Record function := { func_name : string; requirements : option (gset string) }.

Definition add_resource (resource : string) (func : function) : function :=
  let req := default ∅ (requirements func) in
  let req := req ∪ {[resource]} in
  {| func_name := func_name func; requirements := Some req |}.

Definition requires (resource : string) : function → function :=
  add_resource resource.

(** ** Notions used to state the properties *)

(** The token that an n-gram holds for index [i]. *)
Definition token_at (tokens : list string) (i : Z) : string :=
  default OUT_OF_BOUNDS_TOKEN (if decide (0 ≤ i) then tokens !! Z.to_nat i else None).

(** The number of positions below both lengths at which the two lists hold
    the same sequence. *)
Definition agreeing_positions (y_true y_pred : list label_seq) : nat :=
  length (filter (λ i, y_true !! i = y_pred !! i)
            (seq 0 (length y_true `min` length y_pred))).

(** A model class whose construction looks up a missing key, and registries
    that hold it under the type ["text"]. *)
Definition failing_class : @model_class unit := λ _, Raise (KeyError "params").

Definition failing_registries : registries unit unit unit :=
  {| MODEL_MAP := {[ "text" := failing_class ]}; FEATURE_MAP := ∅; LABEL_MAP := ∅ |}.

(** ** Dynamic gazetteer ingestion *)

(** Resources are nested dicts that the code copies and then updates in
    place, so they live in a store of dict objects addressed by identity.
    A value is [None], an integer, a string, or a reference to a dict of the
    store. *)
Definition loc := positive.

Inductive val :=
  | VNone
  | VInt (z : Z)
  | VStr (s : string)
  | VRef (l : loc).

#[global] Instance val_eq_dec : EqDecision val.
Proof. solve_decision. Defined.

Abbreviation dict := (gmap string val).
Abbreviation heap := (gmap loc dict).

(** [copy.deepcopy]: an object that has a copy in [memo] is replaced by that
    copy; any other dict gets a new empty dict, recorded in [memo] before its
    items are copied into it one by one. [None] stands for a store that is
    not a Python store (a reference to no object) or for exhausted fuel. *)
Fixpoint copy_items (rec : val → gmap loc loc → heap → option (val * gmap loc loc * heap))
    (y : loc) (items : list (string * val)) (memo : gmap loc loc) (h : heap)
    : option (gmap loc loc * heap) :=
  match items with
  | [] => Some (memo, h)
  | (k, v) :: rest =>
      match rec v memo h with
      | Some (v', memo1, h1) =>
          copy_items rec y rest memo1 (alter (λ d, <[k := v']> d) y h1)
      | None => None
      end
  end.

Fixpoint deepcopy_fuel (fuel : nat) (x : val) (memo : gmap loc loc) (h : heap)
    : option (val * gmap loc loc * heap) :=
  match x with
  | VRef l =>
      match memo !! l with
      | Some y => Some (VRef y, memo, h)
      | None =>
          match fuel, h !! l with
          | S fuel', Some d =>
              let y := fresh (dom h) in
              match copy_items (deepcopy_fuel fuel') y (map_to_list d)
                      (<[l := y]> memo) (<[y := ∅]> h) with
              | Some (memo', h') => Some (VRef y, memo', h')
              | None => None
              end
          | _, _ => None
          end
      end
  | _ => Some (x, memo, h)
  end.

(** One unit of fuel per object of the store is enough (see
    [deepcopy_total]). *)
Definition deepcopy (x : val) (h : heap) : option (val * heap) :=
  match deepcopy_fuel (size h) x ∅ h with
  | Some (x', _, h') => Some (x', h')
  | None => None
  end.

Section ingest.
(** The gazetteer component is external to the module. It is taken as a
    parameter: a type of gazetteer objects with the constructor, the
    deserialisation of a dict (which may read the store), the per-key
    update and the serialisation to the items of a new dict.

    The keys of a dict are visited in the order of [map_to_list]. Where the
    code needs a dict (to test membership, to index by a key or to iterate)
    and the value at hand is not a reference to one, the call raises; the
    model reports a [TypeError]. *)
Context {Gaz : Type}.
Variable Gazetteer : string → Gaz.
Variable from_dict : Gaz → heap → dict → Gaz.
Variable _update_entity : Gaz → heap → string → val → Gaz.
Variable to_dict : Gaz → dict.

(** [for key in dyn_entity: new_gaz._update_entity(key, dyn_entity[key])] *)
Definition update_entities (h : heap) (new_gaz : Gaz) (dyn_entity : dict) : Gaz :=
  foldl (λ g kv, _update_entity g h kv.1 kv.2) new_gaz (map_to_list dyn_entity).

(** [dynamic_resource[GAZETTEER_RSC][entity]], read as the dict the inner
    loop iterates over. *)
Definition dynamic_entity (dynamic_resource : loc) (entity : string) (h : heap)
    : option (result dict) :=
  dyn ← h !! dynamic_resource;
  match dyn !! GAZETTEER_RSC with
  | None => Some (Raise (KeyError GAZETTEER_RSC))
  | Some (VRef ldg) =>
      dg ← h !! ldg;
      match dg !! entity with
      | None => Some (Raise (KeyError entity))
      | Some (VRef lde) => de ← h !! lde; Some (Ok de)
      | Some _ => Some (Raise TypeError)
      end
  | Some _ => Some (Raise TypeError)
  end.

(** The body of the loop over the entity types of the dynamic resource. *)
Definition ingest_entity (workspace_resource dynamic_resource : loc)
    (entity : string) (h : heap) : option (result unit * heap) :=
  ws ← h !! workspace_resource;
  match ws !! GAZETTEER_RSC with
  | None => Some (Raise (KeyError GAZETTEER_RSC), h)
  | Some (VRef lg) =>
      gaz ← h !! lg;
      match gaz !! entity with
      | None => Some (Ok (), h)
      | Some (VRef le) =>
          serialized ← h !! le;
          let new_gaz := from_dict (Gazetteer entity) h serialized in
          match serialized !! "total_entities" with
          | None => Some (Raise (KeyError "total_entities"), h)
          | Some (VInt n) =>
              updated ←
                (if 0 <? n
                 then r ← dynamic_entity dynamic_resource entity h;
                      Some (de ←! r; Ok (update_entities h new_gaz de))
                 else Some (Ok new_gaz));
              match updated with
              | Raise e => Some (Raise e, h)
              | Ok new_gaz =>
                  let y := fresh (dom h) in
                  let h := <[y := to_dict new_gaz]> h in
                  Some (Ok (), alter (λ d, <[entity := VRef y]> d) lg h)
              end
          | Some _ => Some (Raise TypeError, h)
          end
      | Some _ => Some (Raise TypeError, h)
      end
  | Some _ => Some (Raise TypeError, h)
  end.

Fixpoint ingest_loop (workspace_resource dynamic_resource : loc)
    (entities : list string) (h : heap) : option (result unit * heap) :=
  match entities with
  | [] => Some (Ok (), h)
  | entity :: rest =>
      match ingest_entity workspace_resource dynamic_resource entity h with
      | None => None
      | Some (Ok _, h1) => ingest_loop workspace_resource dynamic_resource rest h1
      | Some (Raise e, h1) => Some (Raise e, h1)
      end
  end.

(** [resource] is a dict of the store; [dynamic_resource] is [None] or a
    dict of the store. The result is the outcome of the call and the store
    after it. *)
Definition ingest_dynamic_gazetteer (resource : loc) (dynamic_resource : option loc)
    (h : heap) : option (result val * heap) :=
  match deepcopy (VRef resource) h with
  | None => None
  | Some (workspace_resource, h) =>
      match workspace_resource, dynamic_resource with
      | VRef ws, Some dynamic =>
          dyn ← h !! dynamic;
          if bool_decide (dyn = (∅ : dict)) then Some (Ok workspace_resource, h)
          else match dyn !! GAZETTEER_RSC with
               | None => Some (Ok workspace_resource, h)
               | Some (VRef ldg) =>
                   dg ← h !! ldg;
                   match ingest_loop ws dynamic (map_to_list dg).*1 h with
                   | None => None
                   | Some (r, h) => Some (_ ←! r; Ok workspace_resource, h)
                   end
               | Some _ => Some (Raise TypeError, h)
               end
      | _, _ => Some (Ok workspace_resource, h)
      end
  end.
End ingest.

(** ** Values of the store *)

(** [finite_value h v]: the value [v] unfolds in [h] to a finite nested
    dict: every reference below it points to an object, and no object
    contains itself. *)
Inductive finite_value (h : heap) : val → Prop :=
  | finite_None : finite_value h VNone
  | finite_Int z : finite_value h (VInt z)
  | finite_Str s : finite_value h (VStr s)
  | finite_Ref l d :
      h !! l = Some d →
      (∀ k v, d !! k = Some v → finite_value h v) →
      finite_value h (VRef l).

(** A checker for [finite_value] on nesting depth at most [n]. *)
Fixpoint finite_upto (n : nat) (h : heap) (v : val) : bool :=
  match v with
  | VRef l =>
      match n, h !! l with
      | S n', Some d => forallb (λ kv, finite_upto n' h kv.2) (map_to_list d)
      | _, _ => false
      end
  | _ => true
  end.

(** [reach h v l]: the object [l] is [v] itself or lies below [v] in [h]. *)
Inductive reach (h : heap) : val → loc → Prop :=
  | reach_here l : reach h (VRef l) l
  | reach_step l d k v l' :
      h !! l = Some d → d !! k = Some v → reach h v l' → reach h (VRef l) l'.

(** [same_value h1 h2 v1 v2]: [v1] in [h1] and [v2] in [h2] are equal as
    Python values ([==]): the same immediate value, or dicts with the same
    keys and equal values under each key. *)
Inductive same_value (h1 h2 : heap) : val → val → Prop :=
  | same_None : same_value h1 h2 VNone VNone
  | same_Int z : same_value h1 h2 (VInt z) (VInt z)
  | same_Str s : same_value h1 h2 (VStr s) (VStr s)
  | same_Ref l1 l2 d1 d2 :
      h1 !! l1 = Some d1 → h2 !! l2 = Some d2 →
      dom d1 = dom d2 →
      (∀ k v1 v2, d1 !! k = Some v1 → d2 !! k = Some v2 → same_value h1 h2 v1 v2) →
      same_value h1 h2 (VRef l1) (VRef l2).

(** The copy of a value under a memo of copied objects. *)
Definition ren (memo : gmap loc loc) (v : val) : val :=
  match v with
  | VRef l => VRef (default l (memo !! l))
  | _ => v
  end.

(** [is_copy h memo h']: [h'] extends [h] with one new object per entry of
    [memo], and the new object for [l] holds the items of [l] with every
    value replaced by its copy. *)
Record is_copy (h : heap) (memo : gmap loc loc) (h' : heap) : Prop := {
  copy_frame : h ⊆ h';
  copy_inj : ∀ l1 l2 y, memo !! l1 = Some y → memo !! l2 = Some y → l1 = l2;
  copy_obj : ∀ l y, memo !! l = Some y →
    (y ∉ dom h) ∧
    ∃ d, h !! l = Some d ∧ h' !! y = Some (ren memo <$> d) ∧
         ∀ k l2, d !! k = Some (VRef l2) → l2 ∈ dom memo
}.


(** ** Invariants of the copy and of the ingestion loop *)

(** While [h0] is being copied: the store extends [h0], and [m] maps
    objects of [h0] to distinct objects that are not in [h0]. *)
Definition copy_inv (h0 : heap) (m : gmap loc loc) (h : heap) : Prop :=
  h0 ⊆ h ∧
  (∀ l y, m !! l = Some y → l ∈ dom h0 ∧ y ∈ dom h ∧ y ∉ dom h0) ∧
  (∀ l1 l2 y, m !! l1 = Some y → m !! l2 = Some y → l1 = l2).

(** The objects copied between two states of the copy are complete. *)
Definition new_objs (h0 : heap) (m m' : gmap loc loc) (h h' : heap) : Prop :=
  ∀ l y, m' !! l = Some y → m !! l = None →
    (y ∉ dom h) ∧
    ∃ d, h0 !! l = Some d ∧ h' !! y = Some (ren m' <$> d) ∧
         ∀ k l2, d !! k = Some (VRef l2) → l2 ∈ dom m'.

(** What a call of the copy function with enough fuel guarantees. *)
Definition rec_spec (h0 : heap)
    (rec : val → gmap loc loc → heap → option (val * gmap loc loc * heap))
    (fuel : nat) : Prop :=
  ∀ x m h,
    copy_inv h0 m h → finite_value h0 x → (size (dom h0 ∖ dom m) ≤ fuel)%nat →
    ∃ x' m' h',
      rec x m h = Some (x', m', h') ∧ copy_inv h0 m' h' ∧ m ⊆ m' ∧ h ⊆ h' ∧
      x' = ren m' x ∧ (∀ l, x = VRef l → l ∈ dom m') ∧ new_objs h0 m m' h h'.

(** What the loop keeps of the store [h] that the call started from: every
    object of [h], and that the working copy holds no reference into [h]. *)
Definition frame_inv (h : heap) (ws : loc) (hc : heap) : Prop :=
  h ⊆ hc ∧
  ∀ wsd k l, hc !! ws = Some wsd → wsd !! k = Some (VRef l) → l ∉ dom h.

(** What the loop keeps about one entity type whose entry has no entities:
    the objects of [h], the working copy and every copied object other
    than the gazetteer section; while the type is still to come the section
    holds the copied entry [le']; once it has been dealt with the section
    holds a new object with the serialised form of the gazetteer that was
    built, in the store [hc0] of that moment, from the copied items [ser],
    without any update. *)
Definition skip_inv {Gaz : Type} (Gazetteer : string → Gaz)
    (from_dict : Gaz → heap → dict → Gaz) (to_dict : Gaz → dict)
    (h h1 : heap) (ws lg' : loc) (entity : string) (le' : loc) (ser : dict)
    (remaining : list string) (hc : heap) : Prop :=
  h ⊆ hc ∧
  hc !! ws = h1 !! ws ∧
  (∀ y d, y ≠ lg' → h1 !! y = Some d → hc !! y = Some d) ∧
  ∃ gz, hc !! lg' = Some gz ∧
    ((entity ∈ remaining ∧ gz !! entity = Some (VRef le')) ∨
     ((entity ∉ remaining) ∧
      ∃ hc0 y, h ⊆ hc0 ∧
        (∀ y0 d, y0 ≠ lg' → h1 !! y0 = Some d → hc0 !! y0 = Some d) ∧
        gz !! entity = Some (VRef y) ∧ y ≠ lg' ∧ (y ∉ dom h) ∧
        hc !! y = Some (to_dict (from_dict (Gazetteer entity) hc0 ser)))).

(** A store without dangling references. *)
Definition closed (h : heap) : Prop :=
  ∀ l d k l2, h !! l = Some d → d !! k = Some (VRef l2) → l2 ∈ dom h.

(** What the loop needs to go on: the objects of [h], a working copy, and
    under it a gazetteer section, distinct from the copy, whose entries
    exist. *)
Definition progress_inv (h : heap) (ws : loc) (hc : heap) : Prop :=
  frame_inv h ws hc ∧
  ∃ wsd, hc !! ws = Some wsd ∧
    ∀ lg, wsd !! GAZETTEER_RSC = Some (VRef lg) →
      lg ≠ ws ∧ ∃ gz, hc !! lg = Some gz ∧
        ∀ k le, gz !! k = Some (VRef le) → le ∈ dom hc.

(** ** A sample gazetteer component and store *)

(** A gazetteer object that is the dict it was built from, with the updates
    written into it. *)
Definition sample_Gazetteer (name : string) : dict := ∅.
Definition sample_from_dict (g : dict) (h : heap) (d : dict) : dict := d.
Definition sample_update_entity (g : dict) (h : heap) (key : string) (value : val)
  : dict := <[key := value]> g.
Definition sample_to_dict (g : dict) : dict := g.

(** The gazetteer section of the sample resource: an entry without entities
    and an entry with two. *)
Definition sample_section : dict :=
  {[ "city" := VRef 3%positive; "dish" := VRef 7%positive ]}.

Definition sample_resource : dict := {[ "gazetteers" := VRef 2%positive ]}.

(** Object 1 is the resource, object 4 the dynamic resource, which lists
    ["city"], ["dish"] and ["zip"]. *)
Definition sample_store : heap :=
  <[1%positive := sample_resource]>
  (<[2%positive := sample_section]>
  (<[3%positive := {[ "total_entities" := VInt 0; "name" := VStr "city" ]}]>
  (<[7%positive := {[ "total_entities" := VInt 2; "name" := VStr "dish" ]}]>
  (<[4%positive := {[ "gazetteers" := VRef 5%positive ]}]>
  (<[5%positive := {[ "city" := VRef 6%positive; "dish" := VRef 6%positive;
                      "zip" := VRef 6%positive ]}]>
  (<[6%positive := {[ "paris" := VInt 7 ]}]> ∅)))))).

Definition sample_call : option (result val * heap) :=
  ingest_dynamic_gazetteer sample_Gazetteer sample_from_dict sample_update_entity
    sample_to_dict 1%positive (Some 4%positive) sample_store.

Definition sample_final_store : heap :=
  match sample_call with
  | Some (_, h') => h'
  | None => ∅
  end.

(** ** A gazetteer component that serialises its own fields *)










(** ** Notions used by the further properties *)

(** A score as the scoring helpers return it: the integer [0] or a float
    between [0] and [1]. *)
Definition unit_score (p : pynum) : Prop :=
  match p with
  | PyInt z => z = 0
  | PyFloat q => (0 <= q)%Q ∧ (q <= 1)%Q
  end.

(** The value of a score as a rational. *)
Definition score_value (p : pynum) : Q :=
  match p with
  | PyInt z => inject_Z z
  | PyFloat q => q
  end.

(** The number of positions below both lengths at which the two tag streams
    hold the same tag. *)
Definition agreeing_tags (tags_true tags_pred : list string) : nat :=
  length (filter (λ i, tags_true !! i = tags_pred !! i)
            (seq 0 (length tags_true `min` length tags_pred))).

(** Two entity annotations agree on what the comparison looks at. *)
Definition entity_match (a b : QueryEntity) : Prop :=
  type (entity a) = type (entity b) ∧ span a = span b ∧ text a = text b.

(** Sample registries: a model class that returns a model named after its
    configuration, a label encoder class, and registries that hold a model
    class under ["memm"] only. *)
Definition sample_model_class : @model_class string :=
  λ config, Ok ("model:" +:+ model_type config).

Definition sample_label_class : @label_class string :=
  λ config, Ok ("encoder:" +:+ label_type config).

Definition raising_class : @model_class string :=
  λ _, Raise (OtherError "NotImplementedError").

Definition sample_registries : registries string string string :=
  {| MODEL_MAP := {[ "memm" := raising_class ]}; FEATURE_MAP := ∅; LABEL_MAP := ∅ |}.

Definition sample_config : ModelConfig :=
  {| model_type := "text"; label_type := "class" |}.

(** The strings whose [repr] is the string between apostrophes: printable
    ASCII characters (code points 32 to 126) other than the apostrophe (39)
    and the backslash (92). *)
Definition repr_plain (s : string) : bool :=
  string_forall (λ c, let n := nat_of_ascii c in
                      (32 <=? n)%nat && (n <=? 126)%nat &&
                      negb (n =? 39)%nat && negb (n =? 92)%nat) s.

(** What the loop keeps of the gazetteer section whatever the gazetteer
    component does: the working copy, and the entity types of the
    section. *)
Definition keys_inv (h1 : heap) (ws : loc) (d_g : dict) (lg' : loc) (hc : heap) : Prop :=
  hc !! ws = h1 !! ws ∧
  ∃ gz, hc !! lg' = Some gz ∧ dom gz = dom d_g.

(** Every entry of a gazetteer section is a dict with an integer
    [total_entities] count. *)
Definition entries_counted (h : heap) (d_g : dict) : Prop :=
  ∀ entity e, d_g !! entity = Some e →
    ∃ le d_e n, e = VRef le ∧ h !! le = Some d_e ∧
                d_e !! "total_entities" = Some (VInt n).

(** Every entry of a dynamic gazetteer section is a dict. *)
Definition entries_dicts (h : heap) (dg : dict) : Prop :=
  ∀ entity v, dg !! entity = Some v → ∃ lde de, v = VRef lde ∧ h !! lde = Some de.

(** What the loop keeps while it returns: the objects of [h], the working
    copy, the copied objects other than the section, and the copied entry
    under every entity type that is still to come. *)
Definition run_inv (h : heap) (memo : gmap loc loc) (h1 : heap) (ws : loc)
    (d_g : dict) (lg' : loc) (remaining : list string) (hc : heap) : Prop :=
  h ⊆ hc ∧
  hc !! ws = h1 !! ws ∧
  (∀ y d, y ≠ lg' → h1 !! y = Some d → hc !! y = Some d) ∧
  ∃ gz, hc !! lg' = Some gz ∧
    ∀ entity, entity ∈ remaining → gz !! entity = (ren memo <$> d_g) !! entity.

(** What the loop keeps about one entity type that is merged: while the
    type is still to come the section holds the copied entry [le']; once it
    has been dealt with the section holds a new object with the serialised
    gazetteer that was built from the copied items [ser] and updated with
    the dynamic items [de]. *)
Definition merge_inv {Gaz : Type} (Gazetteer : string → Gaz)
    (from_dict : Gaz → heap → dict → Gaz)
    (_update_entity : Gaz → heap → string → val → Gaz) (to_dict : Gaz → dict)
    (h h1 : heap) (ws lg' : loc) (entity : string) (le' : loc) (ser de : dict)
    (remaining : list string) (hc : heap) : Prop :=
  h ⊆ hc ∧
  hc !! ws = h1 !! ws ∧
  (∀ y d, y ≠ lg' → h1 !! y = Some d → hc !! y = Some d) ∧
  ∃ gz, hc !! lg' = Some gz ∧
    ((entity ∈ remaining ∧ gz !! entity = Some (VRef le')) ∨
     ((entity ∉ remaining) ∧
      ∃ hc0 y, h ⊆ hc0 ∧ gz !! entity = Some (VRef y) ∧ y ≠ lg' ∧ (y ∉ dom h) ∧
        hc !! y = Some (to_dict (update_entities _update_entity hc0
                                   (from_dict (Gazetteer entity) hc0 ser) de)))).

(** * Properties *)

(** ** Text helpers *)

Lemma string_map_length f s : String.length (string_map f s) = String.length s.
Proof. induction s as [|c s IH]; simpl; congruence. Qed.

Lemma string_map_get f s i c :
  String.get i s = Some c → String.get i (string_map f s) = Some (f c).
Proof.
  revert i. induction s as [|c' s IH]; intros i; simpl; [done|].
  destruct i as [|i]; [by intros [= ->] | apply IH].
Qed.

Lemma isdigit_spec s :
  isdigit s = negb (String.eqb s "") && string_forall is_digit s.
Proof. by destruct s. Qed.

(** C10: the empty token is not masked to [#NUM]; it takes the replacement
    branch and comes back empty, although all of its (zero) characters are
    digits. *)
Theorem mask_numerics_empty :
  mask_numerics "" = "" ∧ mask_numerics "" ≠ "#NUM" ∧
  isdigit "" = false ∧ string_forall is_digit "" = true.
Proof. by repeat split. Qed.

(** C5, as stated: a token made of digit characters only is masked to
    [#NUM]. The empty token refutes it. *)
Lemma mask_numerics_all_digits_fails :
  ¬ (∀ token, string_forall is_digit token = true → mask_numerics token = "#NUM").
Proof. intros H. by specialize (H "" eq_refl). Qed.

(** C5, amended: a non-empty ASCII token made of digit characters only is
    masked to [#NUM]; any other ASCII token keeps its length and every
    character, except that each digit becomes [8]. *)
Theorem mask_numerics_spec (token : string) :
  is_ascii token = true →
  (if negb (String.eqb token "") && string_forall is_digit token
   then mask_numerics token = "#NUM"
   else String.length (mask_numerics token) = String.length token ∧
        ∀ i c, String.get i token = Some c →
               String.get i (mask_numerics token)
               = Some (if is_digit c then "8"%char else c))
  ∧ mask_numerics "123" = "#NUM"
  ∧ mask_numerics "a1b2" = "a8b8"
  ∧ mask_numerics "abc" = "abc".
Proof.
  intros _. split; [|done].
  unfold mask_numerics. rewrite isdigit_spec.
  destruct (negb _ && _); [done|]. split.
  - apply string_map_length.
  - intros i c Hc. unfold re_sub_digit_8. by rewrite (string_map_get _ _ _ _ Hc).
Qed.

(** The token [v2.0] is ASCII text and is not a number: it keeps its length,
    and its second character becomes [8]. *)
Lemma mask_numerics_spec_witness :
  is_ascii "v2.0" = true ∧
  String.length (mask_numerics "v2.0") = 4%nat ∧
  String.get 1 (mask_numerics "v2.0") = Some "8"%char.
Proof.
  split; [reflexivity|].
  destruct (mask_numerics_spec "v2.0" eq_refl) as [[Hlen Hget] _].
  split; [exact Hlen|]. exact (Hget 1%nat "2"%char eq_refl).
Defined.

Lemma get_ngram_token tokens index :
  (if (index <? 0) || (index >=? Z.of_nat (length tokens))
   then Ok OUT_OF_BOUNDS_TOKEN
   else py_getitem tokens index) = Ok (token_at tokens index).
Proof.
  unfold token_at, py_getitem.
  destruct (Z.ltb_spec index 0) as [Hneg|Hpos]; simpl.
  { by rewrite decide_False by lia. }
  rewrite decide_True by done.
  destruct (Z.geb_spec index (Z.of_nat (length tokens))) as [Hge|Hlt].
  { rewrite lookup_ge_None_2 by lia. done. }
  destruct (Z.ltb_spec index 0); [lia|].
  destruct (Z.leb_spec (Z.of_nat (length tokens)) index); [lia|]. simpl.
  destruct (lookup_lt_is_Some_2 tokens (Z.to_nat index)) as [t Ht]; [lia|].
  by rewrite Ht.
Qed.

Lemma get_ngram_loop_spec tokens indices acc :
  get_ngram_loop tokens indices acc = Ok (acc ++ (token_at tokens <$> indices)).
Proof.
  revert acc. induction indices as [|index rest IH]; intros acc; simpl.
  { by rewrite app_nil_r. }
  rewrite get_ngram_token. simpl. rewrite IH. by rewrite <- app_assoc.
Qed.

(** C4: [get_ngram] never raises; it returns the space-joined list of
    [length] tokens whose [k]-th element is [tokens[start + k]] when that
    index is within [0, len(tokens)) and the sentinel otherwise. *)
Theorem get_ngram_spec (tokens : list string) (start length : Z) :
  (∃ ngram_tokens,
     get_ngram tokens start length = Ok (join " " ngram_tokens) ∧
     List.length ngram_tokens = Z.to_nat length ∧
     ∀ k : nat, (k < Z.to_nat length)%nat →
       let index := start + Z.of_nat k in
       ngram_tokens !! k =
         if decide (0 ≤ index < Z.of_nat (List.length tokens))
         then tokens !! Z.to_nat index
         else Some "<$>")
  ∧ get_ngram ["a"; "b"; "c"] (-1) 2 = Ok "<$> a"
  ∧ get_ngram ["a"; "b"; "c"] 2 2 = Ok "c <$>".
Proof.
  split; [|done].
  exists (token_at tokens <$> py_range start (start + length)).
  unfold get_ngram. rewrite get_ngram_loop_spec. simpl.
  unfold py_range. replace (start + length - start) with length by lia.
  split; [done|]. split.
  { by rewrite length_fmap, length_seqZ. }
  intros k Hk. cbv zeta. set (index := start + Z.of_nat k).
  rewrite list_lookup_fmap, lookup_seqZ_lt by lia. simpl.
  unfold token_at. fold index.
  destruct (decide (0 ≤ index)) as [H0|H0].
  - destruct (decide (0 ≤ index < _)) as [Hin|Hout].
    + destruct (lookup_lt_is_Some_2 tokens (Z.to_nat index)) as [t Ht]; [lia|].
      by rewrite Ht.
    + by rewrite lookup_ge_None_2 by lia.
  - by rewrite decide_False by lia.
Qed.

(** ** Scoring helpers *)

Lemma filter_seq_S (P : nat → Prop) `{!∀ i, Decision (P i)} j n :
  List.length (filter P (seq (S j) n))
  = List.length (filter (λ i, P (S i)) (seq j n)).
Proof.
  revert j. induction n as [|n IH]; intros j; simpl; [done|].
  rewrite !filter_cons. destruct (decide (P (S j))); simpl; by rewrite IH.
Qed.

Lemma sum_ones {A} (l : list A) : sum_list ((λ _, 1%nat) <$> l) = List.length l.
Proof. induction l as [|x l IH]; [done|]. cbn. by rewrite IH. Qed.

Lemma zip_matches (y_true y_pred : list label_seq) :
  List.length (filter (λ p, p.1 = p.2) (zip y_true y_pred))
  = agreeing_positions y_true y_pred.
Proof.
  unfold agreeing_positions. revert y_pred.
  induction y_true as [|t y_true IH]; intros [|p y_pred]; simpl; try done.
  rewrite !filter_cons. simpl.
  destruct (decide (t = p)) as [->|Hne].
  - rewrite decide_True by done. simpl.
    rewrite (filter_seq_S (λ i, (p :: y_true) !! i = (p :: y_pred) !! i)).
    by rewrite IH.
  - rewrite decide_False by congruence.
    rewrite (filter_seq_S (λ i, (t :: y_true) !! i = (p :: y_pred) !! i)).
    by rewrite IH.
Qed.

(** C1: the score is [0] for an empty [y_true]; otherwise it is the number
    of positions below [min(len(y_true), len(y_pred))] at which the two
    lists hold equal sequences, divided by [len(y_true)]. *)
Theorem sequence_accuracy_scoring_spec (y_true y_pred : list label_seq) :
  sequence_accuracy_scoring y_true y_pred =
    match y_true with
    | [] => PyInt 0
    | _ :: _ =>
        PyFloat (Z.of_nat (agreeing_positions y_true y_pred)
                 # Pos.of_nat (List.length y_true))
    end.
Proof.
  unfold sequence_accuracy_scoring. destruct y_true as [|t y_true]; [done|].
  cbn [List.length Nat.eqb]. unfold float_div.
  by rewrite sum_ones, zip_matches.
Qed.

(** C6: [entity_seqs_equal] is true exactly when the two lists have the same
    length and every aligned pair agrees on entity type, span and text. *)
Theorem entity_seqs_equal_spec (expected predicted : list QueryEntity) :
  entity_seqs_equal expected predicted = true ↔
  List.length expected = List.length predicted ∧
  ∀ i e p, expected !! i = Some e → predicted !! i = Some p →
    type (entity e) = type (entity p) ∧ span e = span p ∧ text e = text p.
Proof.
  unfold entity_seqs_equal.
  destruct (decide (List.length expected = List.length predicted)) as [Hlen|Hlen].
  2: { rewrite bool_decide_eq_true_2 by done. split; [done|]. by intros [? _]. }
  rewrite bool_decide_eq_false_2 by naive_solver.
  revert predicted Hlen.
  induction expected as [|e expected IH]; intros [|p predicted] Hlen;
    simplify_eq/=.
  { naive_solver. }
  repeat case_bool_decide.
  - split; [done|]. intros [_ Hall]. destruct (Hall 0%nat e p) as (?&?&?); done.
  - split; [done|]. intros [_ Hall]. destruct (Hall 0%nat e p) as (?&?&?); done.
  - split; [done|]. intros [_ Hall]. destruct (Hall 0%nat e p) as (?&?&?); done.
  - rewrite IH by done. split.
    + intros [_ Hall]. split; [congruence|]. intros [|i] e' p' ??; simplify_eq/=.
      * done.
      * eauto.
    + intros [_ Hall]. split; [done|]. intros i e' p' ??. by apply (Hall (S i)).
Qed.

(** ** Registries and factories *)

Section registry_facts.
Context {Model LabelEncoder FeatureExtractor : Type}.
Implicit Types σ : registries Model LabelEncoder FeatureExtractor.

Lemma create_model_unknown config σ :
  MODEL_MAP σ !! model_type config = None →
  create_model config σ =
    Raise (ValueError ("Invalid model configuration: Unknown model type "
                       +:+ repr (model_type config))).
Proof. intros H. unfold create_model, dict_getitem. by rewrite H. Qed.

Lemma create_model_known config σ (cls : model_class) m :
  MODEL_MAP σ !! model_type config = Some cls →
  cls config = Ok m →
  create_model config σ = Ok m.
Proof. intros H Hm. unfold create_model, dict_getitem. rewrite H. simpl. by rewrite Hm. Qed.

Lemma create_model_known_KeyError config σ (cls : model_class) k :
  MODEL_MAP σ !! model_type config = Some cls →
  cls config = Raise (KeyError k) →
  create_model config σ =
    Raise (ValueError ("Invalid model configuration: Unknown model type "
                       +:+ repr (model_type config))).
Proof. intros H Hm. unfold create_model, dict_getitem. rewrite H. simpl. by rewrite Hm. Qed.
End registry_facts.

(** C2: each registration function raises a [ValueError] and leaves the
    registries as they are when the key is present, and otherwise inserts the
    given value under the key and touches nothing else; after an insertion a
    second registration of the key raises and the first value stays. *)
Theorem register_once {Model LabelEncoder FeatureExtractor : Type}
    (σ : registries Model LabelEncoder FeatureExtractor) (key : string)
    (model_class : model_class) (features : gmap string FeatureExtractor)
    (label_encoder : label_class) :
  (match MODEL_MAP σ !! key with
   | Some _ => ∃ msg, register_model key model_class σ = (Raise (ValueError msg), σ)
   | None =>
       ∃ σ', register_model key model_class σ = (Ok (), σ') ∧
         MODEL_MAP σ' = <[key := model_class]> (MODEL_MAP σ) ∧
         FEATURE_MAP σ' = FEATURE_MAP σ ∧ LABEL_MAP σ' = LABEL_MAP σ ∧
         ∀ other, ∃ msg,
           register_model key other σ' = (Raise (ValueError msg), σ') ∧
           MODEL_MAP σ' !! key = Some model_class
   end) ∧
  (match FEATURE_MAP σ !! key with
   | Some _ => ∃ msg, register_features key features σ = (Raise (ValueError msg), σ)
   | None =>
       ∃ σ', register_features key features σ = (Ok (), σ') ∧
         FEATURE_MAP σ' = <[key := features]> (FEATURE_MAP σ) ∧
         MODEL_MAP σ' = MODEL_MAP σ ∧ LABEL_MAP σ' = LABEL_MAP σ ∧
         ∀ other, ∃ msg,
           register_features key other σ' = (Raise (ValueError msg), σ') ∧
           FEATURE_MAP σ' !! key = Some features
   end) ∧
  (match LABEL_MAP σ !! key with
   | Some _ => ∃ msg, register_label key label_encoder σ = (Raise (ValueError msg), σ)
   | None =>
       ∃ σ', register_label key label_encoder σ = (Ok (), σ') ∧
         LABEL_MAP σ' = <[key := label_encoder]> (LABEL_MAP σ) ∧
         MODEL_MAP σ' = MODEL_MAP σ ∧ FEATURE_MAP σ' = FEATURE_MAP σ ∧
         ∀ other, ∃ msg,
           register_label key other σ' = (Raise (ValueError msg), σ') ∧
           LABEL_MAP σ' !! key = Some label_encoder
   end).
Proof.
  split_and!.
  - unfold register_model. destruct (MODEL_MAP σ !! key) as [c|] eqn:Hk.
    + rewrite bool_decide_eq_true_2 by (apply elem_of_dom; eauto). eauto.
    + rewrite bool_decide_eq_false_2 by by apply not_elem_of_dom.
      eexists. split_and!; try done. intros other. simpl.
      rewrite bool_decide_eq_true_2 by set_solver.
      eexists. split; [done|]. apply lookup_insert_eq.
  - unfold register_features. destruct (FEATURE_MAP σ !! key) as [c|] eqn:Hk.
    + rewrite bool_decide_eq_true_2 by (apply elem_of_dom; eauto). eauto.
    + rewrite bool_decide_eq_false_2 by by apply not_elem_of_dom.
      eexists. split_and!; try done. intros other. simpl.
      rewrite bool_decide_eq_true_2 by set_solver.
      eexists. split; [done|]. apply lookup_insert_eq.
  - unfold register_label. destruct (LABEL_MAP σ !! key) as [c|] eqn:Hk.
    + rewrite bool_decide_eq_true_2 by (apply elem_of_dom; eauto). eauto.
    + rewrite bool_decide_eq_false_2 by by apply not_elem_of_dom.
      eexists. split_and!; try done. intros other. simpl.
      rewrite bool_decide_eq_true_2 by set_solver.
      eexists. split; [done|]. apply lookup_insert_eq.
Qed.

(** C3: with a registered model type whose class raises a [KeyError] while it
    is being constructed, [create_model] reports the type as unknown. *)
Theorem create_model_masks_KeyError :
  let config := {| model_type := "text"; label_type := "class" |} in
  MODEL_MAP failing_registries !! model_type config = Some failing_class ∧
  failing_class config = Raise (KeyError "params") ∧
  create_model config failing_registries =
    Raise (ValueError "Invalid model configuration: Unknown model type 'text'").
Proof. done. Qed.

(** ** The resource-requirement decorator *)

(** C9: applying [requires a] and then [requires b] gives the same function
    with a requirement set that holds both names; a function without the
    attribute starts from the empty set; the order of the two applications
    does not change the result. *)
Theorem requires_accumulates (f : function) (a b : string) :
  func_name (requires b (requires a f)) = func_name f ∧
  (∃ req, requirements (requires b (requires a f)) = Some req ∧
          a ∈ req ∧ b ∈ req ∧
          ∀ r, r ∈ req ↔ r = a ∨ r = b ∨ r ∈ default ∅ (requirements f)) ∧
  requirements (requires a {| func_name := func_name f; requirements := None |})
    = Some {[ a ]} ∧
  requires b (requires a f) = requires a (requires b f).
Proof.
  unfold requires, add_resource. simpl. split_and!.
  - done.
  - eexists. split; [done|]. set_solver.
  - f_equal. set_solver.
  - do 2 f_equal. set_solver.
Qed.

(** ** The store: deep copies *)

Lemma ren_mono (m m' : gmap loc loc) v :
  m ⊆ m' → (∀ l, v = VRef l → l ∈ dom m) → ren m v = ren m' v.
Proof.
  intros Hsub Hdom. destruct v as [ | ? | ? | l ]; try done. simpl.
  pose proof (Hdom l eq_refl) as Hl. apply elem_of_dom in Hl as [y Hy].
  rewrite Hy. by rewrite (lookup_weaken _ _ _ _ Hy Hsub).
Qed.

Lemma foldl_insert_union (f : val → val) (items : list (string * val)) (d0 : dict) :
  NoDup items.*1 →
  foldl (λ d kv, <[kv.1 := f kv.2]> d) d0 items
  = list_to_map (prod_map id f <$> items) ∪ d0.
Proof.
  revert d0. induction items as [|[k v] items IH]; intros d0 Hnd; csimpl in *.
  { by rewrite (left_id_L ∅ (∪)). }
  apply NoDup_cons in Hnd as [Hk Hnd]. rewrite IH by done.
  rewrite <- insert_union_l, <- insert_union_r; [done|].
  apply not_elem_of_list_to_map_1. rewrite <- list_fmap_compose.
  by rewrite (list_fmap_ext (fst ∘ prod_map id f) fst items) by (by intros []).
Qed.

Lemma foldl_insert_fmap (f : val → val) (d : dict) :
  foldl (λ d' kv, <[kv.1 := f kv.2]> d') ∅ (map_to_list d) = f <$> d.
Proof.
  rewrite foldl_insert_union by apply NoDup_fst_map_to_list.
  rewrite (right_id_L ∅ (∪)), list_to_map_fmap. by rewrite list_to_map_to_list.
Qed.

Section copy.
Variable h0 : heap.

Lemma measure_mono (m m' : gmap loc loc) :
  m ⊆ m' → (size (dom h0 ∖ dom m') ≤ size (dom h0 ∖ dom m))%nat.
Proof.
  intros Hsub%subseteq_dom. apply subseteq_size. set_solver.
Qed.

Lemma measure_insert (m : gmap loc loc) l y :
  l ∈ dom h0 → m !! l = None →
  (size (dom h0 ∖ dom (<[l := y]> m)) < size (dom h0 ∖ dom m))%nat.
Proof.
  intros Hl Hm%not_elem_of_dom. apply subset_size.
  rewrite dom_insert_L. set_solver.
Qed.

Lemma copy_items_spec rec fuel :
  rec_spec h0 rec fuel →
  ∀ y items m h dy,
    copy_inv h0 m h →
    (∀ k v, (k, v) ∈ items → finite_value h0 v) →
    (size (dom h0 ∖ dom m) ≤ fuel)%nat →
    h !! y = Some dy → y ∉ dom h0 →
    ∃ m' h',
      copy_items rec y items m h = Some (m', h') ∧
      copy_inv h0 m' h' ∧ m ⊆ m' ∧
      (∀ l d, l ≠ y → h !! l = Some d → h' !! l = Some d) ∧
      h' !! y = Some (foldl (λ d kv, <[kv.1 := ren m' kv.2]> d) dy items) ∧
      (∀ k l2, (k, VRef l2) ∈ items → l2 ∈ dom m') ∧
      new_objs h0 m m' h h'.
Proof.
  intros Hrec y items.
  induction items as [|[k v] rest IH]; intros m h dy Hinv Hfin Hsz Hy Hy0.
  { exists m, h. split_and!; try done.
    - intros ?? Hin. by apply elem_of_nil in Hin.
    - intros l y' H1 H2. congruence. }
  destruct (Hrec v m h) as (v' & m1 & h1 & Hcall & Hinv1 & Hm1 & Hh1 & -> & Hv & Hnew1);
    [done| apply (Hfin k); left |done|].
  simpl. rewrite Hcall.
  set (h1' := alter (λ d, <[k := ren m1 v]> d) y h1).
  assert (h1 !! y = Some dy) as Hy1 by by eapply lookup_weaken.
  assert (h1' !! y = Some (<[k := ren m1 v]> dy)) as Hy1'.
  { unfold h1'. by rewrite lookup_alter_eq, Hy1. }
  assert (∀ l, l ≠ y → h1' !! l = h1 !! l) as Hne.
  { intros l Hl. unfold h1'. by rewrite lookup_alter_ne. }
  assert (copy_inv h0 m1 h1') as Hinv1'.
  { destruct Hinv1 as (Hsub & Hrange & Hinj). split_and!; [ | |done].
    - apply map_subseteq_spec. intros l d Hl.
      rewrite Hne; [by eapply lookup_weaken|].
      intros ->. by apply elem_of_dom_2 in Hl.
    - intros l y' Hl. destruct (Hrange _ _ Hl) as (?&?&?).
      split_and!; try done. unfold h1'. by rewrite dom_alter_L. }
  destruct (IH m1 h1' (<[k := ren m1 v]> dy)) as (m' & h' & Hloop & Hinv' & Hm' & Hfr & Hy' & Hrefs & Hnew');
    [done| |by etrans; [apply measure_mono|] |done|done|].
  { intros k' v' Hin. apply (Hfin k'). by right. }
  exists m', h'.
  assert (ren m1 v = ren m' v) as Hren by by apply ren_mono.
  split_and!.
  - done.
  - done.
  - by etrans.
  - intros l d Hl Hd. apply Hfr; [done|]. rewrite Hne by done.
    by eapply lookup_weaken.
  - simpl. by rewrite <- Hren.
  - intros k' l2 [[= <- <-]|Hin]%elem_of_cons.
    + eapply subseteq_dom; [done|]. by apply Hv.
    + by eapply Hrefs.
  - intros l y' Hl Hnone. destruct (m1 !! l) as [y1|] eqn:Hl1.
    + pose proof (lookup_weaken _ _ _ _ Hl1 Hm') as Hl'.
      assert (y' = y1) as -> by congruence.
      destruct (Hnew1 _ _ Hl1 Hnone) as (Hfresh & d & Hd0 & Hd1 & Hch).
      split; [done|]. exists d. split_and!; [done| |].
      * assert (y1 ≠ y) as Hyy.
        { intros ->. by eapply Hfresh, elem_of_dom_2. }
        rewrite (Hfr y1 (ren m1 <$> d)); [|done|by rewrite Hne].
        f_equal. apply map_fmap_ext. intros k' x Hx.
        apply ren_mono; [done|]. intros l2 ->. by eapply Hch.
      * intros k' l2 Hk'. eapply subseteq_dom; [done|]. by eapply Hch.
    + destruct (Hnew' _ _ Hl Hl1) as (Hfresh & Hrest). split; [|done].
      intros Hin. apply Hfresh. unfold h1'. rewrite dom_alter_L.
      by eapply subseteq_dom.
Qed.
End copy.

Lemma deepcopy_fuel_done (h0 : heap) (fuel : nat) x m h :
  copy_inv h0 m h → (∀ l, x = VRef l → is_Some (m !! l)) →
  ∃ x' m' h',
    deepcopy_fuel fuel x m h = Some (x', m', h') ∧ copy_inv h0 m' h' ∧ m ⊆ m' ∧ h ⊆ h' ∧
    x' = ren m' x ∧ (∀ l, x = VRef l → l ∈ dom m') ∧ new_objs h0 m m' h h'.
Proof.
  intros Hinv Hx. exists (ren m x), m, h. split_and!; try done.
  - destruct x as [ | z | s | l ]; destruct fuel; simpl; try done.
    all: destruct (Hx _ eq_refl) as [y Hy]; by rewrite Hy.
  - intros l ->. by apply elem_of_dom, Hx.
  - intros l y H1 H2. congruence.
Qed.

Lemma deepcopy_fuel_spec (h0 : heap) (fuel : nat) :
  rec_spec h0 (deepcopy_fuel fuel) fuel.
Proof.
  induction fuel as [|fuel IH]; intros x m h Hinv Hfin Hsz.
  all: destruct Hfin as [| z | s | l d Hl Hch];
    [by apply deepcopy_fuel_done..|].
  all: destruct (m !! l) as [y|] eqn:Hml;
    [apply deepcopy_fuel_done; [done|]; intros ? [= <-]; eauto|].
  { exfalso. pose proof (measure_insert h0 m l l (elem_of_dom_2 _ _ _ Hl) Hml). lia. }
  destruct Hinv as (Hsub & Hrange & Hinj).
  assert (h !! l = Some d) as Hhl by by eapply lookup_weaken.
  set (y := fresh (dom h)).
  assert (y ∉ dom h) as Hy by apply is_fresh.
  assert (y ∉ dom h0) as Hy0.
  { intros Hin. apply Hy. by eapply subseteq_dom. }
  assert (copy_inv h0 (<[l := y]> m) (<[y := ∅]> h)) as Hinv1.
  { split_and!.
    - etrans; [done|]. by apply insert_subseteq, not_elem_of_dom.
    - intros l1 y1 [[-> ->]|[Hne Hl1]]%lookup_insert_Some.
      + split_and!; [by eapply elem_of_dom_2| |done].
        rewrite dom_insert_L. set_solver.
      + destruct (Hrange _ _ Hl1) as (?&?&?). split_and!; [done| |done].
        rewrite dom_insert_L. set_solver.
    - intros l1 l2 y1 [[-> <-]|[Hne1 Hl1]]%lookup_insert_Some
                        [[-> Heq]|[Hne2 Hl2]]%lookup_insert_Some; try done.
      + destruct (Hrange _ _ Hl2) as (?&?&?). done.
      + subst y1. destruct (Hrange _ _ Hl1) as (?&?&?). done.
      + by eapply Hinj. }
  destruct (copy_items_spec h0 _ fuel IH y (map_to_list d) (<[l := y]> m) (<[y := ∅]> h) ∅)
    as (m' & h' & Hloop & Hinv' & Hm' & Hfr & Hy' & Hrefs & Hnew'); [done| | | |done|].
  { intros k v Hin%elem_of_map_to_list. by eapply Hch. }
  { pose proof (measure_insert h0 m l y (elem_of_dom_2 _ _ _ Hl) Hml). lia. }
  { apply lookup_insert_eq. }
  assert (m' !! l = Some y) as Hml'.
  { eapply lookup_weaken; [|done]. apply lookup_insert_eq. }
  assert (m ⊆ m') as Hmm'.
  { etrans; [|done]. by apply insert_subseteq. }
  exists (VRef y), m', h'. split_and!.
  - simpl. rewrite Hml, Hhl. fold y. by rewrite Hloop.
  - done.
  - done.
  - apply map_subseteq_spec. intros l1 d1 Hl1. apply Hfr.
    + intros ->. by eapply Hy, elem_of_dom_2.
    + rewrite lookup_insert_ne; [done|].
      intros <-. by eapply Hy, elem_of_dom_2.
  - simpl. by rewrite Hml'.
  - intros ? [= <-]. by eapply elem_of_dom_2.
  - intros l1 y1 Hl1 Hnone. destruct (decide (l1 = l)) as [->|Hne].
    + assert (y1 = y) as -> by congruence. split; [done|].
      exists d. split_and!; [done| |].
      * rewrite Hy'. by rewrite foldl_insert_fmap.
      * intros k l2 Hk. apply (Hrefs k). by apply elem_of_map_to_list.
    + destruct (Hnew' l1 y1) as (Hfresh & Hrest); [done| |].
      { by rewrite lookup_insert_ne. }
      split; [|done]. intros Hin. apply Hfresh. rewrite dom_insert_L. set_solver.
Qed.

(** [deepcopy] of a finite value returns, and what it returns is a copy. *)
Lemma deepcopy_total (h : heap) (r : loc) :
  finite_value h (VRef r) →
  ∃ w memo h',
    deepcopy (VRef r) h = Some (VRef w, h') ∧
    memo !! r = Some w ∧ is_copy h memo h'.
Proof.
  intros Hfin.
  destruct (deepcopy_fuel_spec h (size h) (VRef r) ∅ h)
    as (x' & m' & h' & Hcall & Hinv & _ & Hsub & -> & Hr & Hnew); [|done| |].
  { split_and!; [done|by intros ?? ?%lookup_empty_Some|by intros ??? ?%lookup_empty_Some]. }
  { rewrite <- size_dom. apply subseteq_size. set_solver. }
  pose proof (Hr r eq_refl) as [w Hw]%elem_of_dom.
  exists w, m', h'. split_and!.
  - unfold deepcopy. rewrite Hcall. simpl. by rewrite Hw.
  - done.
  - destruct Hinv as (_ & _ & Hinj). split; [done|done|].
    intros l y Hl. by apply Hnew.
Qed.

(** ** The store: finite values, reachability and equality of values *)

Lemma finite_upto_sound (n : nat) (h : heap) (v : val) :
  finite_upto n h v = true → finite_value h v.
Proof.
  revert v. induction n as [|n IH]; intros [ | z | s | l ]; simpl;
    try done; try by constructor.
  destruct (h !! l) as [d|] eqn:Hl; [|done].
  intros Hall. apply finite_Ref with d; [done|].
  intros k v Hkv. apply IH.
  rewrite forallb_forall in Hall. apply (Hall (k, v)).
  by apply list_elem_of_In, elem_of_map_to_list.
Qed.

Lemma finite_value_weaken (h h' : heap) v :
  h ⊆ h' → finite_value h v → finite_value h' v.
Proof.
  intros Hsub. induction 1 as [| | |l d Hl _ IH]; try by constructor.
  apply finite_Ref with d; [by eapply lookup_weaken|done].
Qed.

Lemma reach_snoc (h : heap) v l d k l' :
  reach h v l → h !! l = Some d → d !! k = Some (VRef l') → reach h v l'.
Proof.
  induction 1 as [l|l0 d0 k0 v0 l1 Hl0 Hk0 _ IH]; intros Hl Hk.
  - eapply reach_step; [done..|constructor].
  - eapply reach_step; [done..|]. by apply IH.
Qed.

(** No object of a finite value lies below itself. *)
Lemma finite_acyclic (h : heap) l d k c :
  finite_value h (VRef l) → h !! l = Some d → d !! k = Some c → ¬ reach h c l.
Proof.
  intros Hfin. remember (VRef l) as x eqn:Hx. revert l d k c Hx.
  induction Hfin as [| | |l0 d0 Hl0 Hch IH]; intros l d k c [= <-] Hl Hk Hreach.
  assert (d0 = d) as -> by congruence.
  destruct Hreach as [l0|lc dc k2 c2 l0 Hlc Hk2 Hreach].
  - by eapply (IH k (VRef l0) Hk l0 d k (VRef l0)); [..|constructor].
  - eapply (IH k (VRef lc) Hk lc dc k2 c2); [done..|].
    by eapply reach_snoc.
Qed.

Lemma finite_child (h : heap) l d k c :
  finite_value h (VRef l) → h !! l = Some d → d !! k = Some c → finite_value h c.
Proof. inversion 1; simplify_eq. intros ? ?. simplify_eq. eauto. Qed.

(** Everything below a copied object has been copied. *)
Lemma is_copy_reach (h : heap) memo h' v l :
  is_copy h memo h' → reach h v l →
  (∀ l0, v = VRef l0 → l0 ∈ dom memo) → l ∈ dom memo.
Proof.
  intros Hcopy. induction 1 as [l|l0 d0 k0 v0 l1 Hl0 Hk0 _ IH]; intros Hv.
  { by apply Hv. }
  apply IH. intros l2 ->.
  pose proof (Hv l0 eq_refl) as [y Hy]%elem_of_dom.
  destruct (copy_obj _ _ _ Hcopy _ _ Hy) as (_ & d & Hd & _ & Hch).
  assert (d = d0) as -> by congruence. by eapply Hch.
Qed.

(** Every object below a copy is itself a copy, hence a new object. *)
Lemma is_copy_reach_new (h : heap) memo h' v l :
  is_copy h memo h' → reach h' v l →
  (∀ y, v = VRef y → ∃ l0, memo !! l0 = Some y) → l ∉ dom h.
Proof.
  intros Hcopy. induction 1 as [y|y d k v l Hy Hk _ IH]; intros Hv.
  { destruct (Hv y eq_refl) as [l0 Hl0].
    by destruct (copy_obj _ _ _ Hcopy _ _ Hl0). }
  apply IH. intros y2 ->.
  destruct (Hv y eq_refl) as [l0 Hl0].
  destruct (copy_obj _ _ _ Hcopy _ _ Hl0) as (_ & d0 & Hd0 & Hy' & Hch).
  rewrite Hy' in Hy. simplify_eq. rewrite lookup_fmap in Hk.
  destruct (d0 !! k) as [[ | z | s | l2 ]|] eqn:Hdk; simplify_eq/=.
  pose proof (Hch _ _ Hdk) as [y3 Hy3]%elem_of_dom.
  rewrite Hy3. eauto.
Qed.

(** A value equals its copy in any store that still holds the copies of the
    objects below it. *)
Lemma same_value_ren (h hf : heap) memo v :
  finite_value h v →
  (∀ l, reach h v l →
     ∃ y d, memo !! l = Some y ∧ h !! l = Some d ∧ hf !! y = Some (ren memo <$> d)) →
  same_value h hf v (ren memo v).
Proof.
  induction 1 as [| | |l d Hl Hch IH]; intros Hobj; try by constructor.
  destruct (Hobj l) as (y & d' & Hy & Hd' & Hfy); [constructor|].
  assert (d' = d) as -> by congruence.
  simpl. rewrite Hy. simpl.
  apply same_Ref with d (ren memo <$> d); [done|done|by rewrite dom_fmap_L|].
  intros k v1 v2 Hv1 Hv2. rewrite lookup_fmap, Hv1 in Hv2. simplify_eq/=.
  apply (IH k); [done|]. intros l' Hreach. apply Hobj. by eapply reach_step.
Qed.

Lemma is_copy_same_value (h : heap) memo h' r :
  is_copy h memo h' → finite_value h (VRef r) → r ∈ dom memo →
  same_value h h' (VRef r) (ren memo (VRef r)).
Proof.
  intros Hcopy Hfin Hr. apply same_value_ren; [done|].
  intros l Hreach.
  assert (l ∈ dom memo) as [y Hy]%elem_of_dom.
  { eapply is_copy_reach; [done..|]. by intros ? [= <-]. }
  destruct (copy_obj _ _ _ Hcopy _ _ Hy) as (_ & d & Hd & Hfy & _). eauto.
Qed.

(** ** Dynamic gazetteer ingestion *)

Section ingest_facts.
Context {Gaz : Type}.
Variable Gazetteer : string → Gaz.
Variable from_dict : Gaz → heap → dict → Gaz.
Variable _update_entity : Gaz → heap → string → val → Gaz.
Variable to_dict : Gaz → dict.

Local Abbreviation entity_step := (ingest_entity Gazetteer from_dict _update_entity to_dict).
Local Abbreviation entity_loop := (ingest_loop Gazetteer from_dict _update_entity to_dict).
Local Abbreviation ingest :=
  (ingest_dynamic_gazetteer Gazetteer from_dict _update_entity to_dict).

(** One iteration either leaves the store as it is, or stores the
    serialised gazetteer in a new object and points the entity's key of
    the gazetteer section to it. *)
Lemma ingest_entity_step ws dyn entity (hc : heap) r hn :
  entity_step ws dyn entity hc = Some (r, hn) →
  hn = hc ∨
  ∃ wsd lg gaz le serialized n new_gaz,
    hc !! ws = Some wsd ∧ wsd !! GAZETTEER_RSC = Some (VRef lg) ∧
    hc !! lg = Some gaz ∧ gaz !! entity = Some (VRef le) ∧
    hc !! le = Some serialized ∧
    serialized !! "total_entities" = Some (VInt n) ∧
    (n ≤ 0 → new_gaz = from_dict (Gazetteer entity) hc serialized) ∧
    r = Ok () ∧
    hn = alter (λ d, <[entity := VRef (fresh (dom hc))]> d) lg
           (<[fresh (dom hc) := to_dict new_gaz]> hc).
Proof.
  unfold ingest_entity. intros Hstep.
  destruct (hc !! ws) as [wsd|] eqn:Hws; simplify_eq/=.
  destruct (wsd !! GAZETTEER_RSC) as [[ | z | s | lg ]|] eqn:Hg; simplify_eq/=;
    try by left.
  destruct (hc !! lg) as [gaz|] eqn:Hlg; simplify_eq/=.
  destruct (gaz !! entity) as [[ | z | s | le ]|] eqn:He; simplify_eq/=;
    try by left.
  destruct (hc !! le) as [serialized|] eqn:Hle; simplify_eq/=.
  destruct (serialized !! "total_entities") as [[ | n | s | l ]|] eqn:Ht;
    simplify_eq/=; try by left.
  destruct (0 <? n) eqn:Hn.
  - destruct (dynamic_entity dyn entity hc) as [[de|e]|]; simplify_eq/=;
      [|by left].
    right.
    exists wsd, lg, gaz, le, serialized, n,
      (update_entities _update_entity hc (from_dict (Gazetteer entity) hc serialized) de).
    split_and!; try done. intros ?. apply Z.ltb_lt in Hn. lia.
  - simplify_eq/=. right.
    exists wsd, lg, gaz, le, serialized, n, (from_dict (Gazetteer entity) hc serialized).
    split_and!; done.
Qed.

Lemma ingest_loop_inv (P : heap → Prop) ws dyn :
  (∀ entity hc r hn, P hc → entity_step ws dyn entity hc = Some (r, hn) → P hn) →
  ∀ entities hc r hf, P hc → entity_loop ws dyn entities hc = Some (r, hf) → P hf.
Proof.
  intros Hstep entities.
  induction entities as [|entity rest IH]; intros hc r hf HP Hloop; simplify_eq/=.
  { done. }
  destruct (entity_step ws dyn entity hc) as [[[[]|e] h1]|] eqn:Hent; simplify_eq/=.
  - eapply IH; [|done]. by eapply Hstep.
  - by eapply Hstep.
Qed.

Lemma ingest_entity_frame (h : heap) ws dyn entity hc r hn :
  frame_inv h ws hc → entity_step ws dyn entity hc = Some (r, hn) →
  frame_inv h ws hn.
Proof.
  intros [Hsub Hws] Hstep.
  destruct (ingest_entity_step _ _ _ _ _ _ Hstep)
    as [->|(wsd & lg & gaz & le & ser & n & g & Hw & Hg & Hlg & He & Hle & Ht & _ & -> & ->)];
    [done|].
  set (y := fresh (dom hc)).
  assert (y ∉ dom hc) as Hy by apply is_fresh.
  assert (lg ∉ dom h) as Hlg0 by by eapply Hws.
  split.
  - apply map_subseteq_spec. intros l d Hl.
    assert (hc !! l = Some d) as Hl' by by eapply lookup_weaken.
    rewrite lookup_alter_ne, lookup_insert_ne; [done| |].
    + intros <-. by eapply Hy, elem_of_dom_2.
    + intros <-. by eapply Hlg0, elem_of_dom_2.
  - intros wsd' k l Hw' Hk. destruct (decide (lg = ws)) as [->|Hne].
    + rewrite lookup_alter_eq, lookup_insert_ne, Hw in Hw'.
      2: { intros Heq. apply Hy. rewrite Heq. by eapply elem_of_dom_2. }
      simplify_eq/=.
      apply lookup_insert_Some in Hk as [[_ [= <-]]|[_ Hk]].
      * intros Hin. apply Hy. by eapply subseteq_dom.
      * by eapply Hws.
    + rewrite lookup_alter_ne, lookup_insert_ne in Hw' by
        (try done; intros Heq; apply Hy; rewrite Heq; by eapply elem_of_dom_2).
      by eapply Hws.
Qed.

Lemma is_copy_frame_inv (h : heap) memo h1 r w :
  is_copy h memo h1 → memo !! r = Some w → frame_inv h w h1.
Proof.
  intros Hcopy Hr. split; [apply Hcopy|].
  intros wsd k l Hw Hk.
  destruct (copy_obj _ _ _ Hcopy _ _ Hr) as (_ & d & Hd & Hw' & Hch).
  rewrite Hw' in Hw. simplify_eq. rewrite lookup_fmap in Hk.
  destruct (d !! k) as [[ | z | s | l2 ]|] eqn:Hdk; simplify_eq/=.
  pose proof (Hch _ _ Hdk) as [y Hy]%elem_of_dom. rewrite Hy. simpl.
  by destruct (copy_obj _ _ _ Hcopy _ _ Hy) as (? & _).
Qed.

(** C7: a call never changes an object of the store it started from, so
    the original resource is as it was; with no dynamic resource the call
    returns a new object, distinct from every object of the original
    store down to its innermost dict, whose value equals that of the
    resource. *)
Theorem ingest_keeps_resource (h : heap) (resource : loc) :
  finite_value h (VRef resource) →
  (∀ dynamic_resource r h',
     ingest resource dynamic_resource h = Some (r, h') →
     h ⊆ h' ∧ h' !! resource = h !! resource) ∧
  (∃ w h',
     ingest resource None h = Some (Ok (VRef w), h') ∧
     w ≠ resource ∧ (∀ l, reach h' (VRef w) l → l ∉ dom h) ∧
     same_value h h' (VRef resource) (VRef w)).
Proof.
  intros Hfin.
  destruct (deepcopy_total h resource Hfin) as (w & memo & h1 & Hcopy & Hr & Hiso).
  assert (is_Some (h !! resource)) as [d_r Hd_r] by (inversion Hfin; eauto).
  assert (w ∉ dom h) as Hw by by destruct (copy_obj _ _ _ Hiso _ _ Hr).
  split.
  - assert (∀ r h', ingest resource None h = Some (r, h') → h ⊆ h')
      as Hnone.
    { intros r h'. unfold ingest_dynamic_gazetteer. rewrite Hcopy.
      intros [= <- <-]. apply Hiso. }
    assert (∀ dynamic_resource r h',
      ingest resource dynamic_resource h = Some (r, h') → h ⊆ h')
      as Hframe.
    { intros [dynamic|] r h'; [|apply Hnone].
      unfold ingest_dynamic_gazetteer. rewrite Hcopy. intros Hcall.
      destruct (h1 !! dynamic) as [dyn|] eqn:Hdyn; simplify_eq/=.
      case_bool_decide; simplify_eq/=; [apply Hiso|].
      destruct (dyn !! GAZETTEER_RSC) as [[ | z | s | ldg ]|] eqn:Hg; simplify_eq/=;
        try apply Hiso.
      destruct (h1 !! ldg) as [dg|] eqn:Hdg; simplify_eq/=.
      destruct (entity_loop w dynamic (map_to_list dg).*1 h1) as [[r0 h2]|] eqn:Hloop;
        simplify_eq/=.
      eapply (ingest_loop_inv (frame_inv h w)); [| |done].
      - intros ?????. by apply ingest_entity_frame.
      - by eapply is_copy_frame_inv. }
    intros dynamic_resource r h' Hcall.
    pose proof (Hframe _ _ _ Hcall) as Hsub. split; [done|].
    rewrite Hd_r. by eapply lookup_weaken.
  - exists w, h1. split_and!.
    + unfold ingest_dynamic_gazetteer. by rewrite Hcopy.
    + intros ->. by eapply Hw, elem_of_dom_2.
    + intros l Hreach. eapply is_copy_reach_new; [done..|].
      intros ? [= <-]. eauto.
    + pose proof (is_copy_same_value h memo h1 resource Hiso Hfin) as Hsame.
      simpl in Hsame. rewrite Hr in Hsame. apply Hsame. by eapply elem_of_dom_2.
Qed.

Lemma ingest_entity_keys (h1 : heap) ws wsd d_g lg' dyn entity hc r hn :
  h1 !! ws = Some wsd → wsd !! GAZETTEER_RSC = Some (VRef lg') → lg' ≠ ws →
  keys_inv h1 ws d_g lg' hc →
  entity_step ws dyn entity hc = Some (r, hn) →
  keys_inv h1 ws d_g lg' hn.
Proof.
  intros Hws Hsec Hne (Hw & gz & Hgz & Hdom) Hstep.
  destruct (ingest_entity_step _ _ _ _ _ _ Hstep)
    as [->|(wsd' & lg & gaz & le & ser & n & g & Hw' & Hg & Hlg & He & Hle & Ht & _ & -> & ->)].
  { split; [done|]. eauto. }
  rewrite Hw, Hws in Hw'. simplify_eq.
  set (y := fresh (dom hc)).
  assert (y ∉ dom hc) as Hy by apply is_fresh.
  assert (∀ l d, hc !! l = Some d → l ≠ y) as Hny.
  { intros l d Hl ->. by eapply Hy, elem_of_dom_2. }
  split.
  - rewrite lookup_alter_ne, lookup_insert_ne; [done| |done].
    rewrite Hws in Hw. intros Heq. by eapply (Hny ws).
  - exists (<[entity := VRef y]> gz). split.
    + rewrite lookup_alter_eq, lookup_insert_ne, Hgz; [done|].
      intros Heq. by eapply (Hny lg').
    + rewrite dom_insert_L, <- Hdom. apply elem_of_dom_2 in He. set_solver.
Qed.

Section skip.
Variables (h : heap) (memo : gmap loc loc) (h1 : heap).
Variables (r ws lg lg' : loc) (d_r d_g : dict).
Hypothesis Hcopy : is_copy h memo h1.
Hypothesis Hfin : finite_value h (VRef r).
Hypothesis Hr : h !! r = Some d_r.
Hypothesis Hsec : d_r !! GAZETTEER_RSC = Some (VRef lg).
Hypothesis Hlg : h !! lg = Some d_g.
Hypothesis Hws : memo !! r = Some ws.
Hypothesis Hlg' : memo !! lg = Some lg'.

Lemma skip_finite_section : finite_value h (VRef lg).
Proof. by eapply finite_child. Qed.

Lemma skip_section_not_copy : lg' ≠ ws.
Proof.
  intros Heq. assert (lg = r) as Hlr.
  { eapply (copy_inj _ _ _ Hcopy); [done|]. by rewrite Heq. }
  eapply (finite_acyclic h r d_r GAZETTEER_RSC (VRef lg)); [done..|].
  rewrite Hlr. constructor.
Qed.

Lemma skip_ws : ∃ wsd, h1 !! ws = Some wsd ∧ wsd !! GAZETTEER_RSC = Some (VRef lg').
Proof.
  destruct (copy_obj _ _ _ Hcopy _ _ Hws) as (_ & d & Hd & Hw & _).
  assert (d = d_r) as -> by congruence.
  eexists. split; [done|]. rewrite lookup_fmap, Hsec. simpl. by rewrite Hlg'.
Qed.

(** One entry [le] of the section, under [entity], with a count [n] that is
    not positive, and its copy [le']. *)
Variables (le le' dynamic : loc) (entity : string) (n : Z) (d_e : dict).
Hypothesis Hentity : d_g !! entity = Some (VRef le).
Hypothesis Hle : h !! le = Some d_e.
Hypothesis Htotal : d_e !! "total_entities" = Some (VInt n).
Hypothesis Hnonpos : n ≤ 0.
Hypothesis Hle' : memo !! le = Some le'.

Local Abbreviation skipping :=
  (skip_inv Gazetteer from_dict to_dict h h1 ws lg' entity le' (ren memo <$> d_e)).






End skip.


Lemma dynamic_entity_progress (h : heap) dynamic entity hc :
  closed h → h ⊆ hc → dynamic ∈ dom h →
  is_Some (dynamic_entity dynamic entity hc).
Proof.
  intros Hclosed Hsub [dyn Hdyn]%elem_of_dom. unfold dynamic_entity.
  rewrite (lookup_weaken _ _ _ _ Hdyn Hsub). simpl.
  destruct (dyn !! GAZETTEER_RSC) as [[ | z | s | ldg ]|] eqn:Hg; try done.
  pose proof (Hclosed _ _ _ _ Hdyn Hg) as [dg Hdg]%elem_of_dom.
  rewrite (lookup_weaken _ _ _ _ Hdg Hsub). simpl.
  destruct (dg !! entity) as [[ | z | s | lde ]|] eqn:He; try done.
  pose proof (Hclosed _ _ _ _ Hdg He) as [de Hde]%elem_of_dom.
  by rewrite (lookup_weaken _ _ _ _ Hde Hsub).
Qed.

Lemma ingest_entity_progress (h : heap) ws dynamic entity hc :
  closed h → dynamic ∈ dom h → progress_inv h ws hc →
  ∃ r hn, entity_step ws dynamic entity hc = Some (r, hn) ∧ progress_inv h ws hn.
Proof.
  intros Hclosed Hdyn Hinv.
  assert (∃ r hn, entity_step ws dynamic entity hc = Some (r, hn)) as (r & hn & Hstep).
  { destruct Hinv as ([Hsub _] & wsd & Hws & Hsec). unfold ingest_entity.
    rewrite Hws. simpl.
    destruct (wsd !! GAZETTEER_RSC) as [[ | z | s | lg ]|] eqn:Hg; eauto.
    destruct (Hsec lg eq_refl) as (_ & gz & Hgz & Hentries). rewrite Hgz. simpl.
    destruct (gz !! entity) as [[ | z | s | le ]|] eqn:He; eauto.
    pose proof (Hentries _ _ He) as [ser Hser]%elem_of_dom. rewrite Hser. simpl.
    destruct (ser !! "total_entities") as [[ | n | s | l ]|]; eauto.
    destruct (0 <? n); simpl; [|eauto].
    destruct (dynamic_entity_progress h dynamic entity hc) as [[de|e] ->];
      simpl; eauto. }
  exists r, hn. split; [done|].
  destruct Hinv as (Hframe & wsd & Hws & Hsec).
  split; [by eapply ingest_entity_frame|].
  destruct (ingest_entity_step _ _ _ _ _ _ Hstep)
    as [->|(wsd' & lg & gaz & le & ser & n & g & Hw' & Hg & Hlg & He & Hle & Ht & _ & -> & ->)];
    [by eauto|].
  assert (wsd' = wsd) as -> by congruence.
  destruct (Hsec lg Hg) as (Hne & gz & Hgz & Hentries).
  assert (gz = gaz) as -> by congruence.
  set (y := fresh (dom hc)).
  assert (y ∉ dom hc) as Hy by apply is_fresh.
  assert (ws ≠ y) as Hwy.
  { intros <-. by eapply Hy, elem_of_dom_2. }
  exists wsd. split.
  { by rewrite lookup_alter_ne, lookup_insert_ne. }
  intros lg0 Hg0. assert (lg0 = lg) as -> by congruence.
  split; [done|]. exists (<[entity := VRef y]> gaz). split.
  { rewrite lookup_alter_eq, lookup_insert_ne, Hlg; [done|].
    intros <-. by eapply Hy, elem_of_dom_2. }
  intros k le0 Hk. rewrite dom_alter_L, dom_insert_L.
  apply lookup_insert_Some in Hk as [[_ [= <-]]|[_ Hk]]; [set_solver|].
  apply Hentries in Hk. set_solver.
Qed.

Lemma ingest_loop_progress (h : heap) ws dynamic entities :
  closed h → dynamic ∈ dom h →
  ∀ hc, progress_inv h ws hc →
  ∃ r hf, entity_loop ws dynamic entities hc = Some (r, hf).
Proof.
  intros Hclosed Hdyn.
  induction entities as [|entity rest IH]; intros hc Hinv; simpl; [eauto|].
  destruct (ingest_entity_progress h ws dynamic entity hc)
    as ([[]|e] & hn & -> & Hinv'); eauto.
Qed.

Lemma is_copy_progress_inv (h : heap) memo h1 (r w : loc) :
  is_copy h memo h1 → finite_value h (VRef r) → memo !! r = Some w →
  progress_inv h w h1.
Proof.
  intros Hcopy Hfin Hr. split; [by eapply is_copy_frame_inv|].
  destruct (copy_obj _ _ _ Hcopy _ _ Hr) as (_ & d_r & Hd_r & Hw & Hch).
  exists (ren memo <$> d_r). split; [done|].
  intros lg'. rewrite lookup_fmap.
  destruct (d_r !! GAZETTEER_RSC) as [[ | z | s | lg ]|] eqn:Hsec; try done.
  pose proof (Hch _ _ Hsec) as [y Hy]%elem_of_dom.
  simpl. rewrite Hy. simpl. intros [= <-].
  destruct (copy_obj _ _ _ Hcopy _ _ Hy) as (_ & d_g & Hd_g & Hg & Hchg).
  split.
  { by eapply (skip_section_not_copy h memo h1 r w lg y d_r). }
  exists (ren memo <$> d_g). split; [done|].
  intros k le. rewrite lookup_fmap.
  destruct (d_g !! k) as [[ | z | s | le0 ]|] eqn:Hk; try done.
  pose proof (Hchg _ _ Hk) as [y' Hy']%elem_of_dom.
  simpl. rewrite Hy'. simpl. intros [= <-].
  destruct (copy_obj _ _ _ Hcopy _ _ Hy') as (_ & d_e & _ & He & _).
  by eapply elem_of_dom_2.
Qed.

(** On a store without dangling references, with a finite resource and a
    dynamic resource that is [None] or a dict of the store, a call always
    has an outcome: it returns or it raises. *)
Lemma ingest_outcome (h : heap) (resource : loc) (dynamic_resource : option loc) :
  closed h → finite_value h (VRef resource) →
  (∀ dynamic, dynamic_resource = Some dynamic → dynamic ∈ dom h) →
  ∃ r h', ingest resource dynamic_resource h = Some (r, h').
Proof.
  intros Hclosed Hfin Hdyn.
  destruct (deepcopy_total h resource Hfin) as (w & memo & h1 & Hcopy & Hr & Hiso).
  unfold ingest_dynamic_gazetteer. rewrite Hcopy.
  destruct dynamic_resource as [dynamic|]; [|eauto].
  pose proof (Hdyn dynamic eq_refl) as Hin.
  pose proof Hin as [dyn Hd]%elem_of_dom.
  rewrite (lookup_weaken _ _ _ _ Hd (copy_frame _ _ _ Hiso)). simpl.
  case_bool_decide; [eauto|].
  destruct (dyn !! GAZETTEER_RSC) as [[ | z | s | ldg ]|] eqn:Hg; eauto.
  pose proof (Hclosed _ _ _ _ Hd Hg) as [dg Hdg]%elem_of_dom.
  rewrite (lookup_weaken _ _ _ _ Hdg (copy_frame _ _ _ Hiso)). simpl.
  destruct (ingest_loop_progress h w dynamic (map_to_list dg).*1 Hclosed Hin h1)
    as (r & hf & ->); [by eapply is_copy_progress_inv|eauto].
Qed.
End ingest_facts.


(** The sample call leaves the sample store as it was. *)
Lemma ingest_keeps_resource_witness :
  finite_value sample_store (VRef 1%positive) ∧
  sample_store ⊆ sample_final_store ∧
  sample_final_store !! 1%positive = sample_store !! 1%positive.
Proof.
  assert (finite_value sample_store (VRef 1%positive)) as Hfin.
  { apply (finite_upto_sound 3). vm_compute. reflexivity. }
  split; [exact Hfin|].
  apply (proj1 (ingest_keeps_resource sample_Gazetteer sample_from_dict
                  sample_update_entity sample_to_dict sample_store 1%positive Hfin)
           (Some 4%positive) (Ok (VRef 8%positive)) sample_final_store).
  vm_compute. reflexivity.
Defined.


(** * Further properties *)

(** ** Text helpers *)

Lemma string_map_get_inv f s i c :
  String.get i (string_map f s) = Some c →
  ∃ c0, String.get i s = Some c0 ∧ c = f c0.
Proof.
  revert i. induction s as [|c' s IH]; intros i; simpl; [done|].
  destruct i as [|i]; [intros [= <-]; eauto | apply IH].
Qed.

Lemma re_sub_digit_8_forall s :
  string_forall is_digit (re_sub_digit_8 s) = string_forall is_digit s.
Proof.
  induction s as [|c s IH]; [done|]. unfold re_sub_digit_8 in *. simpl.
  rewrite IH. by destruct (is_digit c) eqn:Hc; [|rewrite Hc].
Qed.

Lemma re_sub_digit_8_idemp s :
  re_sub_digit_8 (re_sub_digit_8 s) = re_sub_digit_8 s.
Proof.
  induction s as [|c s IH]; [done|]. unfold re_sub_digit_8 in *. simpl.
  rewrite IH. by destruct (is_digit c) eqn:Hc; [|rewrite Hc].
Qed.

(** Masking a masked ASCII token changes nothing. *)
Theorem mask_numerics_idempotent (token : string) :
  is_ascii token = true →
  mask_numerics (mask_numerics token) = mask_numerics token.
Proof.
  intros _. unfold mask_numerics at 2 3. destruct (isdigit token) eqn:Hd; [done|].
  unfold mask_numerics.
  assert (isdigit (re_sub_digit_8 token) = false) as ->.
  { rewrite isdigit_spec in *. rewrite re_sub_digit_8_forall.
    destruct token; [done|]. simpl in *. done. }
  apply re_sub_digit_8_idemp.
Qed.

Lemma mask_numerics_idempotent_witness :
  is_ascii "a1b2" = true ∧ mask_numerics (mask_numerics "a1b2") = mask_numerics "a1b2".
Proof. split; [reflexivity|]. apply (mask_numerics_idempotent "a1b2"). reflexivity. Defined.

(** The only digit that a masked ASCII token can hold is [8]. *)
Theorem mask_numerics_digits (token : string) (i : nat) (c : ascii) :
  is_ascii token = true →
  String.get i (mask_numerics token) = Some c → is_digit c = true → c = "8"%char.
Proof.
  intros _. unfold mask_numerics. destruct (isdigit token).
  - do 4 (destruct i as [|i]; [by intros [= <-]|]). done.
  - intros (c0 & _ & ->)%string_map_get_inv.
    by destruct (is_digit c0) eqn:Hc; [|rewrite Hc].
Qed.

Lemma mask_numerics_digits_witness : ("8" : ascii) = "8"%char.
Proof. exact (mask_numerics_digits "a1" 1 "8"%char eq_refl eq_refl eq_refl). Defined.

Lemma get_ngram_tokens tokens start length :
  get_ngram tokens start length
  = Ok (join " " (token_at tokens <$> seqZ start length)).
Proof.
  unfold get_ngram, py_range. rewrite get_ngram_loop_spec. simpl.
  by replace (start + length - start) with length by lia.
Qed.

(** A window that lies within the tokens is the space-joined slice
    [tokens[start : start + length]]. *)
Theorem get_ngram_slice (tokens : list string) (start length : Z) :
  0 ≤ start → 0 ≤ length → start + length ≤ Z.of_nat (List.length tokens) →
  get_ngram tokens start length
  = Ok (join " " (take (Z.to_nat length) (drop (Z.to_nat start) tokens))).
Proof.
  intros Hs Hl Hend. rewrite get_ngram_tokens. do 2 f_equal.
  apply list_eq. intros i. rewrite list_lookup_fmap.
  destruct (decide (Z.of_nat i < length)) as [Hi|Hi].
  - rewrite lookup_seqZ_lt by done. simpl.
    rewrite lookup_take_lt, lookup_drop by lia.
    unfold token_at. rewrite decide_True by lia.
    replace (Z.to_nat (start + Z.of_nat i)) with (Z.to_nat start + i)%nat by lia.
    destruct (lookup_lt_is_Some_2 tokens (Z.to_nat start + i)) as [t Ht]; [lia|].
    by rewrite Ht.
  - rewrite lookup_take_ge by lia.
    destruct (seqZ start length !! i) as [z|] eqn:Hz; [|done].
    apply lookup_seqZ in Hz. lia.
Qed.

Lemma get_ngram_slice_witness :
  get_ngram ["a"; "b"; "c"; "d"] 1 2 = Ok "b c".
Proof. apply (get_ngram_slice ["a"; "b"; "c"; "d"] 1 2); simpl; lia. Defined.



(** A window of no or negative length is the empty string. *)
Theorem get_ngram_empty (tokens : list string) (start length : Z) :
  length ≤ 0 → get_ngram tokens start length = Ok "".
Proof.
  intros Hl. rewrite get_ngram_tokens. unfold seqZ.
  by replace (Z.to_nat length) with 0%nat by lia.
Qed.

Lemma get_ngram_empty_witness : get_ngram ["a"; "b"] 1 (-2) = Ok "".
Proof. apply (get_ngram_empty ["a"; "b"] 1 (-2)). lia. Defined.

Lemma string_app_assoc (s1 s2 s3 : string) :
  (s1 +:+ s2) +:+ s3 = s1 +:+ s2 +:+ s3.
Proof.
  induction s1 as [|c s1 IH]; [done|].
  change (String c ((s1 +:+ s2) +:+ s3) = String c (s1 +:+ s2 +:+ s3)).
  by rewrite IH.
Qed.

Lemma join_app sep (l1 l2 : list string) :
  l1 ≠ [] → l2 ≠ [] →
  join sep (l1 ++ l2) = join sep l1 +:+ sep +:+ join sep l2.
Proof.
  intros H1 H2. induction l1 as [|x l1 IH]; [done|].
  destruct l1 as [|y l1].
  - simpl. by destruct l2.
  - change (join sep ((x :: y :: l1) ++ l2))
      with (x +:+ sep +:+ join sep ((y :: l1) ++ l2)).
    rewrite IH by done.
    change (join sep (x :: y :: l1)) with (x +:+ sep +:+ join sep (y :: l1)).
    by rewrite !string_app_assoc.
Qed.

(** An n-gram of [n + m] tokens is the n-gram of the first [n] and the
    n-gram of the next [m], with a space between them. *)
Theorem get_ngram_split (tokens : list string) (start n m : Z) :
  0 < n → 0 < m →
  get_ngram tokens start (n + m)
  = (a ←! get_ngram tokens start n;
     b ←! get_ngram tokens (start + n) m;
     Ok (a +:+ " " +:+ b)).
Proof.
  intros Hn Hm. rewrite !get_ngram_tokens. simpl.
  rewrite seqZ_app, fmap_app by lia. f_equal. apply join_app.
  - intros Heq%(f_equal List.length). rewrite length_fmap, length_seqZ in Heq.
    simpl in Heq. lia.
  - intros Heq%(f_equal List.length). rewrite length_fmap, length_seqZ in Heq.
    simpl in Heq. lia.
Qed.

Lemma get_ngram_split_witness :
  get_ngram ["a"; "b"; "c"] (-1) (2 + 3) = Ok "<$> a b c <$>".
Proof. rewrite (get_ngram_split ["a"; "b"; "c"] (-1) 2 3) by lia. reflexivity. Defined.

(** ** Scoring helpers *)

Lemma Zpos_of_nat (n : nat) : n ≠ 0%nat → Z.pos (Pos.of_nat n) = Z.of_nat n.
Proof. intros Hn. rewrite <- positive_nat_Z. by rewrite Nat2Pos.id. Qed.

Lemma float_div_unit (m n : nat) :
  (m ≤ n)%nat → n ≠ 0%nat → unit_score (PyFloat (float_div m n)).
Proof.
  intros Hle Hn. unfold unit_score, float_div, Qle. simpl.
  rewrite Zpos_of_nat by done. lia.
Qed.

Lemma float_div_same (n : nat) : n ≠ 0%nat → (float_div n n == 1)%Q.
Proof.
  intros Hn. unfold float_div, Qeq. simpl. rewrite Zpos_of_nat by done. lia.
Qed.

Lemma float_div_zero (n : nat) : (float_div 0 n == 0)%Q.
Proof. unfold float_div, Qeq. simpl. lia. Qed.

Section zip_facts.
Context {A : Type} `{!EqDecision A}.
Implicit Types xs ys : list A.

Lemma zip_agree xs ys :
  length (filter (λ p, p.1 = p.2) (zip xs ys))
  = length (filter (λ i, xs !! i = ys !! i) (seq 0 (length xs `min` length ys))).
Proof.
  revert ys. induction xs as [|x xs IH]; intros [|y ys]; simpl; try done.
  rewrite !filter_cons. simpl.
  destruct (decide (x = y)) as [->|Hne].
  - rewrite decide_True by done. simpl.
    rewrite (filter_seq_S (λ i, (y :: xs) !! i = (y :: ys) !! i)).
    by rewrite IH.
  - rewrite decide_False by congruence.
    rewrite (filter_seq_S (λ i, (x :: xs) !! i = (y :: ys) !! i)).
    by rewrite IH.
Qed.

Lemma zip_agree_le xs ys :
  (length (filter (λ p, p.1 = p.2) (zip xs ys)) ≤ length xs)%nat.
Proof.
  etrans; [apply length_filter|]. rewrite length_zip_with. lia.
Qed.

Lemma zip_agree_same xs :
  length (filter (λ p, p.1 = p.2) (zip xs xs)) = length xs.
Proof.
  induction xs as [|x xs IH]; [done|]. simpl.
  rewrite filter_cons_True by done. simpl. by rewrite IH.
Qed.

Lemma zip_agree_none xs ys :
  (∀ i x y, xs !! i = Some x → ys !! i = Some y → x ≠ y) →
  filter (λ p, p.1 = p.2) (zip xs ys) = [].
Proof.
  revert ys. induction xs as [|x xs IH]; intros [|y ys] Hne; simpl; try done.
  rewrite filter_cons_False.
  - apply IH. intros i x' y' Hx Hy. by apply (Hne (S i)).
  - simpl. by apply (Hne 0%nat).
Qed.
End zip_facts.

(** The sequence accuracy is the integer [0] or a float between [0] and
    [1]. *)
Theorem sequence_accuracy_scoring_unit (y_true y_pred : list label_seq) :
  unit_score (sequence_accuracy_scoring y_true y_pred).
Proof.
  unfold sequence_accuracy_scoring. destruct y_true as [|t y_true]; [done|].
  cbn [length Nat.eqb]. rewrite sum_ones.
  apply float_div_unit; [apply (zip_agree_le (t :: y_true))|done].
Qed.

(** Scoring a list of sequences against itself gives [1.0], or [0] when the
    list is empty. *)
Theorem sequence_accuracy_scoring_same (y : list label_seq) :
  (score_value (sequence_accuracy_scoring y y)
   == if decide (y = []) then 0 else 1)%Q.
Proof.
  unfold sequence_accuracy_scoring. destruct y as [|t y]; [done|].
  cbn [length Nat.eqb]. rewrite sum_ones, (zip_agree_same (t :: y)).
  rewrite decide_False by done. by apply float_div_same.
Qed.

(** When no aligned pair of sequences agrees the score is zero. *)
Theorem sequence_accuracy_scoring_none (y_true y_pred : list label_seq) :
  (∀ i t p, y_true !! i = Some t → y_pred !! i = Some p → t ≠ p) →
  (score_value (sequence_accuracy_scoring y_true y_pred) == 0)%Q.
Proof.
  intros Hne. unfold sequence_accuracy_scoring.
  destruct y_true as [|t y_true]; [done|].
  cbn [length Nat.eqb]. rewrite zip_agree_none by done. apply float_div_zero.
Qed.

Lemma sequence_accuracy_scoring_none_witness :
  (score_value (sequence_accuracy_scoring [["B"; "O"]; ["O"]] [["O"; "O"]; ["B"]]) == 0)%Q.
Proof.
  apply sequence_accuracy_scoring_none.
  intros [|[|i]] t p; simpl; intros [= <-] [= <-]; discriminate.
Defined.

(** Predictions beyond the length of [y_true] are ignored. *)
Theorem sequence_accuracy_scoring_extra (y_true y_pred extra : list label_seq) :
  (length y_true ≤ length y_pred)%nat →
  sequence_accuracy_scoring y_true (y_pred ++ extra)
  = sequence_accuracy_scoring y_true y_pred.
Proof.
  intros Hlen. unfold sequence_accuracy_scoring.
  rewrite <- (zip_with_take_r pair y_true (y_pred ++ extra)).
  rewrite take_app_le by done. by rewrite zip_with_take_r.
Qed.

Lemma sequence_accuracy_scoring_extra_witness :
  sequence_accuracy_scoring [["O"]] ([["O"]] ++ [["B"]; ["O"]])
  = sequence_accuracy_scoring [["O"]] [["O"]].
Proof. apply sequence_accuracy_scoring_extra. simpl. lia. Defined.

(** A missing prediction counts as a miss: dropping the true sequences that
    have no prediction can only raise the score. *)
Theorem sequence_accuracy_scoring_missing (y_true extra y_pred : list label_seq) :
  (length y_pred ≤ length y_true)%nat → y_true ≠ [] →
  (score_value (sequence_accuracy_scoring (y_true ++ extra) y_pred)
   <= score_value (sequence_accuracy_scoring y_true y_pred))%Q.
Proof.
  intros Hlen Hne. unfold sequence_accuracy_scoring.
  destruct y_true as [|t y_true]; [done|].
  cbn [app length Nat.eqb]. rewrite !sum_ones.
  change (t :: y_true ++ extra) with ((t :: y_true) ++ extra).
  rewrite <- (zip_with_take_l pair ((t :: y_true) ++ extra) y_pred).
  rewrite take_app_le by done. rewrite zip_with_take_l.
  unfold score_value, float_div, Qle. simpl.
  rewrite !Zpos_of_nat by done. rewrite length_app. nia.
Qed.

Lemma sequence_accuracy_scoring_missing_witness :
  (score_value (sequence_accuracy_scoring ([["O"]] ++ [["B"]]) [["O"]])
   <= score_value (sequence_accuracy_scoring [["O"]] [["O"]]))%Q.
Proof. apply sequence_accuracy_scoring_missing; [simpl; lia|done]. Defined.

(** The tag accuracy is [0] when [y_true] holds no tag at all; otherwise it
    is the number of positions of the flattened tag streams at which the
    tags agree, over the number of true tags. *)
Theorem sequence_tag_accuracy_scoring_spec (y_true y_pred : list label_seq) :
  sequence_tag_accuracy_scoring y_true y_pred =
    match concat y_true with
    | [] => PyInt 0
    | _ :: _ =>
        PyFloat (Z.of_nat (agreeing_tags (concat y_true) (concat y_pred))
                 # Pos.of_nat (length (concat y_true)))
    end.
Proof.
  unfold sequence_tag_accuracy_scoring, agreeing_tags.
  destruct (concat y_true) as [|t tags] eqn:Hflat; [done|].
  cbn [length Nat.eqb]. unfold float_div.
  by rewrite sum_ones, (zip_agree (t :: tags)).
Qed.

(** The tag accuracy is the integer [0] or a float between [0] and [1]. *)
Theorem sequence_tag_accuracy_scoring_unit (y_true y_pred : list label_seq) :
  unit_score (sequence_tag_accuracy_scoring y_true y_pred).
Proof.
  unfold sequence_tag_accuracy_scoring.
  destruct (concat y_true) as [|t tags]; [done|].
  cbn [length Nat.eqb]. rewrite sum_ones.
  apply float_div_unit; [apply (zip_agree_le (t :: tags))|done].
Qed.

(** Scoring a list of sequences against itself tag by tag gives [1.0], or
    [0] when it holds no tag. *)
Theorem sequence_tag_accuracy_scoring_same (y : list label_seq) :
  (score_value (sequence_tag_accuracy_scoring y y)
   == if decide (concat y = []) then 0 else 1)%Q.
Proof.
  unfold sequence_tag_accuracy_scoring.
  destruct (concat y) as [|t tags]; [done|].
  cbn [length Nat.eqb]. rewrite sum_ones, (zip_agree_same (t :: tags)).
  rewrite decide_False by done. by apply float_div_same.
Qed.

(** ** Entity comparison *)

Lemma entity_seqs_equal_loop_Forall2 (expected predicted : list QueryEntity) :
  length expected = length predicted →
  entity_seqs_equal_loop (zip expected predicted) = true ↔
  Forall2 entity_match expected predicted.
Proof.
  revert predicted.
  induction expected as [|e expected IH]; intros [|p predicted] Hlen;
    simplify_eq/=.
  { split; [constructor|done]. }
  unfold entity_match at 1.
  repeat case_bool_decide; rewrite ?IH by done.
  all: split; [try done|intros [(?&?&?) ?]%Forall2_cons; try done].
  intros ?. by constructor.
Qed.

Lemma entity_seqs_equal_Forall2 (expected predicted : list QueryEntity) :
  entity_seqs_equal expected predicted = true ↔
  Forall2 entity_match expected predicted.
Proof.
  unfold entity_seqs_equal.
  destruct (decide (length expected = length predicted)) as [Hlen|Hlen].
  - rewrite bool_decide_eq_false_2 by (by intros ?).
    by apply entity_seqs_equal_loop_Forall2.
  - rewrite bool_decide_eq_true_2 by done.
    split; [done|]. by intros ?%Forall2_length.
Qed.

(** The comparison of entity lists is reflexive, symmetric and
    transitive. *)
Theorem entity_seqs_equal_equivalence (es1 es2 es3 : list QueryEntity) :
  entity_seqs_equal es1 es1 = true ∧
  entity_seqs_equal es1 es2 = entity_seqs_equal es2 es1 ∧
  (entity_seqs_equal es1 es2 = true → entity_seqs_equal es2 es3 = true →
   entity_seqs_equal es1 es3 = true).
Proof.
  split_and!.
  - apply entity_seqs_equal_Forall2, Forall_Forall2_diag, Forall_forall.
    by intros.
  - apply eq_true_iff_eq. rewrite !entity_seqs_equal_Forall2. split.
    + intros H. apply Forall2_flip. eapply Forall2_impl; [done|].
      by intros ?? (?&?&?).
    + intros H. apply Forall2_flip. eapply Forall2_impl; [done|].
      by intros ?? (?&?&?).
  - rewrite !entity_seqs_equal_Forall2. intros H12 H23.
    eapply Forall2_trans; [|done..].
    intros a b c (?&?&?) (?&?&?). split_and!; congruence.
Qed.

(** ** Registries and factories *)

(** A registration never changes or removes an entry: each of the three
    maps after a call contains the map before it, whether the call raised or
    not. *)
Theorem register_grows {Model LabelEncoder FeatureExtractor : Type}
    (σ : registries Model LabelEncoder FeatureExtractor) (key : string)
    (model_class : model_class) (features : gmap string FeatureExtractor)
    (label_encoder : label_class) :
  let grows (σ' : registries Model LabelEncoder FeatureExtractor) :=
    MODEL_MAP σ ⊆ MODEL_MAP σ' ∧ FEATURE_MAP σ ⊆ FEATURE_MAP σ' ∧
    LABEL_MAP σ ⊆ LABEL_MAP σ' in
  grows (register_model key model_class σ).2 ∧
  grows (register_features key features σ).2 ∧
  grows (register_label key label_encoder σ).2.
Proof.
  unfold register_model, register_features, register_label.
  split_and!; case_bool_decide as Hk; simpl; try done.
  all: by apply insert_subseteq, not_elem_of_dom.
Qed.

(** What is registered under a new key is what the factories find: the
    model class (when its construction returns), the label encoder class
    (whatever its construction does) and the feature extractors by name. *)
Theorem register_then_lookup {Model LabelEncoder FeatureExtractor : Type}
    (σ : registries Model LabelEncoder FeatureExtractor) (config : ModelConfig)
    (model_class : model_class) (label_encoder : label_class)
    (features : gmap string FeatureExtractor) (example_type name : string) (m : Model) :
  MODEL_MAP σ !! model_type config = None →
  LABEL_MAP σ !! label_type config = None →
  FEATURE_MAP σ !! example_type = None →
  model_class config = Ok m →
  create_model config (register_model (model_type config) model_class σ).2 = Ok m ∧
  get_label_encoder config (register_label (label_type config) label_encoder σ).2
    = label_encoder config ∧
  get_feature_extractor example_type name (register_features example_type features σ).2
    = dict_getitem features name.
Proof.
  intros Hm Hl Hf Hok. split_and!.
  - apply create_model_known with model_class; [|done].
    unfold register_model.
    rewrite bool_decide_eq_false_2 by by apply not_elem_of_dom.
    simpl. apply lookup_insert_eq.
  - unfold get_label_encoder, register_label, dict_getitem.
    rewrite bool_decide_eq_false_2 by by apply not_elem_of_dom.
    simpl. by rewrite lookup_insert_eq.
  - unfold get_feature_extractor, register_features.
    rewrite bool_decide_eq_false_2 by by apply not_elem_of_dom.
    simpl. unfold dict_getitem at 1. by rewrite lookup_insert_eq.
Qed.

Lemma register_then_lookup_witness :
  create_model sample_config
    (register_model "text" sample_model_class sample_registries).2 = Ok "model:text" ∧
  get_label_encoder sample_config
    (register_label "class" sample_label_class sample_registries).2
    = sample_label_class sample_config ∧
  get_feature_extractor "query" "bag-of-words"
    (register_features "query" {[ "bag-of-words" := "bow" ]} sample_registries).2
    = dict_getitem ({[ "bag-of-words" := "bow" ]} : gmap string string) "bag-of-words".
Proof.
  apply (register_then_lookup sample_registries sample_config sample_model_class
           sample_label_class {[ "bag-of-words" := "bow" ]} "query" "bag-of-words"
           "model:text"); reflexivity.
Defined.

(** Registrations under different keys can be made in either order: the
    registries end up the same, whether or not a key was taken. *)
Theorem register_model_commute {Model LabelEncoder FeatureExtractor : Type}
    (σ : registries Model LabelEncoder FeatureExtractor) (k1 k2 : string)
    (c1 c2 : model_class) :
  k1 ≠ k2 →
  (register_model k2 c2 (register_model k1 c1 σ).2).2
  = (register_model k1 c1 (register_model k2 c2 σ).2).2.
Proof.
  intros Hne. unfold register_model.
  destruct (decide (k1 ∈ dom (MODEL_MAP σ))) as [H1|H1];
    destruct (decide (k2 ∈ dom (MODEL_MAP σ))) as [H2|H2].
  all: repeat first
    [ rewrite (bool_decide_eq_true_2 (k1 ∈ _)) by (simpl; rewrite ?dom_insert_L; set_solver)
    | rewrite (bool_decide_eq_true_2 (k2 ∈ _)) by (simpl; rewrite ?dom_insert_L; set_solver)
    | rewrite (bool_decide_eq_false_2 (k1 ∈ _)) by (simpl; rewrite ?dom_insert_L; set_solver)
    | rewrite (bool_decide_eq_false_2 (k2 ∈ _)) by (simpl; rewrite ?dom_insert_L; set_solver)
    | progress simpl ].
  all: try done.
  f_equal. by apply insert_insert_ne.
Qed.

Lemma register_model_commute_witness :
  (register_model "crf" sample_model_class
     (register_model "memm" sample_model_class sample_registries).2).2
  = (register_model "memm" sample_model_class
       (register_model "crf" sample_model_class sample_registries).2).2.
Proof. by apply register_model_commute. Defined.

(** A failed lookup of a label type or of a feature extractor is a bare
    [KeyError] on the missing key, first the example type and then the
    name, not the [ValueError] of [create_model]. *)
Theorem lookup_missing_key {Model LabelEncoder FeatureExtractor : Type}
    (σ : registries Model LabelEncoder FeatureExtractor) (config : ModelConfig)
    (example_type name : string) :
  (LABEL_MAP σ !! label_type config = None →
   get_label_encoder config σ = Raise (KeyError (label_type config))) ∧
  match FEATURE_MAP σ !! example_type with
  | None => get_feature_extractor example_type name σ = Raise (KeyError example_type)
  | Some features =>
      match features !! name with
      | None => get_feature_extractor example_type name σ = Raise (KeyError name)
      | Some extractor => get_feature_extractor example_type name σ = Ok extractor
      end
  end.
Proof.
  unfold get_label_encoder, get_feature_extractor, dict_getitem. split.
  - by intros ->.
  - destruct (FEATURE_MAP σ !! example_type) as [features|]; [|done]. simpl.
    by destruct (features !! name).
Qed.

(** For a registered model type, whatever the class does other than raise
    a [KeyError] is what [create_model] does: it returns the model, or lets
    the exception through unchanged. *)
Theorem create_model_outcome {Model LabelEncoder FeatureExtractor : Type}
    (σ : registries Model LabelEncoder FeatureExtractor) (config : ModelConfig)
    (cls : model_class) :
  MODEL_MAP σ !! model_type config = Some cls →
  (∀ key, cls config ≠ Raise (KeyError key)) →
  create_model config σ = cls config.
Proof.
  intros Hcls Hne. unfold create_model, dict_getitem. rewrite Hcls. simpl.
  destruct (cls config) as [m|[]] eqn:Hr; try done. by destruct (Hne key).
Qed.

Lemma create_model_outcome_witness :
  create_model {| model_type := "memm"; label_type := "class" |} sample_registries
  = Raise (OtherError "NotImplementedError").
Proof.
  apply (create_model_outcome sample_registries
           {| model_type := "memm"; label_type := "class" |} raising_class);
    [reflexivity|]. intros key. discriminate.
Defined.

(** An unknown model type of printable ASCII characters without apostrophe
    or backslash is reported as a [ValueError] whose message ends with the
    type between apostrophes. *)
Theorem create_model_unknown_type {Model LabelEncoder FeatureExtractor : Type}
    (σ : registries Model LabelEncoder FeatureExtractor) (config : ModelConfig) :
  repr_plain (model_type config) = true →
  MODEL_MAP σ !! model_type config = None →
  create_model config σ
  = Raise (ValueError ("Invalid model configuration: Unknown model type '"
                       +:+ model_type config +:+ "'")).
Proof. intros _ Hnone. by rewrite (create_model_unknown config σ Hnone). Qed.

Lemma create_model_unknown_type_witness :
  repr_plain "text" = true ∧
  create_model sample_config sample_registries
  = Raise (ValueError "Invalid model configuration: Unknown model type 'text'").
Proof.
  split; [reflexivity|].
  apply (create_model_unknown_type sample_registries sample_config); reflexivity.
Defined.

(** ** The resource-requirement decorator *)

(** Declaring a requirement twice is the same as declaring it once. *)
Theorem requires_idempotent (f : function) (a : string) :
  requires a (requires a f) = requires a f.
Proof.
  unfold requires, add_resource. simpl. do 2 f_equal. set_solver.
Qed.

(** A stack of decorators leaves the function with the requirements it had
    and every declared resource, and nothing else; the function keeps its
    name. *)
Theorem requires_stack (f : function) (a : string) (resources : list string) :
  func_name (foldr requires (requires a f) resources) = func_name f ∧
  requirements (foldr requires (requires a f) resources)
  = Some (default ∅ (requirements f) ∪ {[ a ]} ∪ list_to_set resources).
Proof.
  induction resources as [|r resources [IHn IHr]].
  - split; [done|]. simpl. f_equal. set_solver.
  - change (foldr requires (requires a f) (r :: resources))
      with (requires r (foldr requires (requires a f) resources)).
    split; [exact IHn|].
    change (requirements (requires r (foldr requires (requires a f) resources)))
      with (Some (default ∅ (requirements (foldr requires (requires a f) resources))
                  ∪ {[ r ]})).
    rewrite IHr. simpl. f_equal. set_solver.
Qed.

(** ** Dynamic gazetteer ingestion *)

Section ingest_more.
Context {Gaz : Type}.
Variable Gazetteer : string → Gaz.
Variable from_dict : Gaz → heap → dict → Gaz.
Variable _update_entity : Gaz → heap → string → val → Gaz.
Variable to_dict : Gaz → dict.

Local Abbreviation entity_step := (ingest_entity Gazetteer from_dict _update_entity to_dict).
Local Abbreviation entity_loop := (ingest_loop Gazetteer from_dict _update_entity to_dict).
Local Abbreviation ingest :=
  (ingest_dynamic_gazetteer Gazetteer from_dict _update_entity to_dict).

(** A dynamic resource that is empty, has no gazetteer section, or has an
    empty one gives what no dynamic resource gives: the plain copy. *)
Theorem ingest_nothing_to_merge (h : heap) (resource dynamic : loc) (dyn : dict) :
  finite_value h (VRef resource) →
  h !! dynamic = Some dyn →
  dyn = ∅ ∨ dyn !! GAZETTEER_RSC = None ∨
    (∃ ldg, dyn !! GAZETTEER_RSC = Some (VRef ldg) ∧ h !! ldg = Some ∅) →
  ingest resource (Some dynamic) h = ingest resource None h.
Proof.
  intros Hfin Hdyn Hcase.
  destruct (deepcopy_total h resource Hfin) as (w & memo & h1 & Hcopy & Hr & Hiso).
  unfold ingest_dynamic_gazetteer. rewrite Hcopy.
  rewrite (lookup_weaken _ _ _ _ Hdyn (copy_frame _ _ _ Hiso)). simpl.
  case_bool_decide as Hempty; [done|].
  destruct Hcase as [->|[->|(ldg & -> & Hdg)]]; [done|done|].
  rewrite (lookup_weaken _ _ _ _ Hdg (copy_frame _ _ _ Hiso)). simpl.
  by rewrite map_to_list_empty.
Qed.

(** The returned resource has the sections of the original, and its
    gazetteer section has the entity types of the original section: the
    ingestion adds none and drops none, whatever the gazetteer component
    does. *)
Theorem ingest_keeps_entity_types (h : heap) (resource : loc)
    (dynamic_resource : option loc) (w : val) (h' : heap) (d_r d_g : dict) (lg : loc) :
  finite_value h (VRef resource) →
  h !! resource = Some d_r →
  d_r !! GAZETTEER_RSC = Some (VRef lg) →
  h !! lg = Some d_g →
  ingest resource dynamic_resource h = Some (Ok w, h') →
  ∃ lw d_w lg' d_g',
    w = VRef lw ∧ h' !! lw = Some d_w ∧ dom d_w = dom d_r ∧
    d_w !! GAZETTEER_RSC = Some (VRef lg') ∧ h' !! lg' = Some d_g' ∧
    dom d_g' = dom d_g.
Proof.
  intros Hfin Hr Hsec Hlg Hcall.
  destruct (deepcopy_total h resource Hfin) as (ws & memo & h1 & Hcopy & Hws & Hiso).
  destruct (copy_obj _ _ _ Hiso _ _ Hws) as (_ & d & Hd & Hwsd & Hch).
  assert (d = d_r) as -> by congruence.
  pose proof (Hch _ _ Hsec) as [lg' Hlg']%elem_of_dom.
  destruct (copy_obj _ _ _ Hiso _ _ Hlg') as (_ & d & Hd' & Hgz & _).
  assert (d = d_g) as -> by congruence.
  assert ((ren memo <$> d_r) !! GAZETTEER_RSC = Some (VRef lg')) as Hsec'.
  { rewrite lookup_fmap, Hsec. simpl. by rewrite Hlg'. }
  assert (lg' ≠ ws) as Hne.
  { by eapply (skip_section_not_copy h memo h1 resource ws lg lg' d_r). }
  assert (keys_inv h1 ws d_g lg' h1) as Hinit.
  { split; [done|]. eexists. split; [done|]. by rewrite dom_fmap_L. }
  assert (w = VRef ws ∧ keys_inv h1 ws d_g lg' h') as [-> (Hw & gz & Hgz' & Hdom)].
  { revert Hcall. unfold ingest_dynamic_gazetteer. rewrite Hcopy. intros Hcall.
    destruct dynamic_resource as [dynamic|]; [|by simplify_eq].
    destruct (h1 !! dynamic) as [dyn|] eqn:Hdyn; simplify_eq/=.
    case_bool_decide; simplify_eq/=; [by auto|].
    destruct (dyn !! GAZETTEER_RSC) as [[ | z | s | ldg ]|] eqn:Hg; simplify_eq/=;
      try by auto.
    destruct (h1 !! ldg) as [dg|] eqn:Hdg; simplify_eq/=.
    destruct (entity_loop ws dynamic (map_to_list dg).*1 h1) as [[[[]|e] h2]|] eqn:Hloop;
      simplify_eq/=.
    split; [done|].
    eapply (ingest_loop_inv _ _ _ _ (keys_inv h1 ws d_g lg')); [|done|done].
    intros ?????. by eapply ingest_entity_keys. }
  exists ws, (ren memo <$> d_r), lg', gz.
  split_and!; try done; [by rewrite Hw|by rewrite dom_fmap_L].
Qed.

(** Without a gazetteer section in the resource, a dynamic resource that
    lists an entity type makes the call raise [KeyError('gazetteers')]. *)
Theorem ingest_missing_section (h : heap) (resource dynamic : loc)
    (d_r dyn dg : dict) (ldg : loc) :
  finite_value h (VRef resource) →
  h !! resource = Some d_r → d_r !! GAZETTEER_RSC = None →
  h !! dynamic = Some dyn → dyn !! GAZETTEER_RSC = Some (VRef ldg) →
  h !! ldg = Some dg → dg ≠ ∅ →
  ∃ h', ingest resource (Some dynamic) h = Some (Raise (KeyError GAZETTEER_RSC), h').
Proof.
  intros Hfin Hr Hsec Hdyn Hg Hdg Hne.
  destruct (deepcopy_total h resource Hfin) as (ws & memo & h1 & Hcopy & Hws & Hiso).
  destruct (copy_obj _ _ _ Hiso _ _ Hws) as (_ & d & Hd & Hwsd & _).
  assert (d = d_r) as -> by congruence.
  unfold ingest_dynamic_gazetteer. rewrite Hcopy.
  rewrite (lookup_weaken _ _ _ _ Hdyn (copy_frame _ _ _ Hiso)). simpl.
  rewrite bool_decide_eq_false_2 by (intros ->; by rewrite lookup_empty in Hg).
  rewrite Hg, (lookup_weaken _ _ _ _ Hdg (copy_frame _ _ _ Hiso)). simpl.
  destruct (map_to_list dg) as [|[entity v] items] eqn:Hitems.
  { by apply map_to_list_empty_iff in Hitems. }
  exists h1. simpl. unfold ingest_entity. rewrite Hwsd. simpl.
  by rewrite lookup_fmap, Hsec.
Qed.

Section returns.
Variables (h : heap) (memo : gmap loc loc) (h1 : heap).
Variables (r ws lg lg' dynamic ldg : loc) (d_r d_g dyn dg : dict).
Hypothesis Hcopy : is_copy h memo h1.
Hypothesis Hfin : finite_value h (VRef r).
Hypothesis Hr : h !! r = Some d_r.
Hypothesis Hsec : d_r !! GAZETTEER_RSC = Some (VRef lg).
Hypothesis Hlg : h !! lg = Some d_g.
Hypothesis Hws : memo !! r = Some ws.
Hypothesis Hlg' : memo !! lg = Some lg'.
Hypothesis Hcounted : entries_counted h d_g.
Hypothesis Hdyn : h !! dynamic = Some dyn.
Hypothesis Hdsec : dyn !! GAZETTEER_RSC = Some (VRef ldg).
Hypothesis Hdg : h !! ldg = Some dg.
Hypothesis Hdicts : entries_dicts h dg.

Lemma returns_dynamic_entity entity hc :
  h ⊆ hc → is_Some (dg !! entity) →
  ∃ de, dynamic_entity dynamic entity hc = Some (Ok de).
Proof.
  intros Hsub [v Hv]. destruct (Hdicts _ _ Hv) as (lde & de & -> & Hde).
  exists de. unfold dynamic_entity.
  rewrite (lookup_weaken _ _ _ _ Hdyn Hsub). simpl. rewrite Hdsec.
  rewrite (lookup_weaken _ _ _ _ Hdg Hsub). simpl. rewrite Hv.
  by rewrite (lookup_weaken _ _ _ _ Hde Hsub).
Qed.

Lemma returns_entity entity rest hc :
  is_Some (dg !! entity) → entity ∉ rest →
  run_inv h memo h1 ws d_g lg' (entity :: rest) hc →
  ∃ hn, entity_step ws dynamic entity hc = Some (Ok (), hn) ∧
        run_inv h memo h1 ws d_g lg' rest hn.
Proof.
  intros Hlisted Hnotin (Hsub & Hw & Hkeep & gz & Hgz & Hrem).
  destruct (skip_ws h memo h1 r ws lg lg' d_r) as (wsd & Hwsd & Hwsec); [done..|].
  assert (lg' ≠ ws) as Hne.
  { by eapply (skip_section_not_copy h memo h1 r ws lg lg' d_r). }
  destruct (copy_obj _ _ _ Hcopy _ _ Hlg') as (Hlg0 & d & Hd & _ & Hch).
  assert (d = d_g) as -> by congruence.
  unfold ingest_entity. rewrite Hw, Hwsd. simpl. rewrite Hwsec, Hgz. simpl.
  rewrite (Hrem entity) by left. rewrite lookup_fmap.
  destruct (d_g !! entity) as [e|] eqn:He; simpl.
  2: { exists hc. split; [done|]. split_and!; try done.
       exists gz. split; [done|]. intros entity0 Hin. apply Hrem. by right. }
  destruct (Hcounted _ _ He) as (le & d_e & n & -> & Hle & Ht).
  pose proof (Hch _ _ He) as [le' Hle']%elem_of_dom.
  destruct (copy_obj _ _ _ Hcopy _ _ Hle') as (_ & d & Hd' & Hcopy_e & _).
  assert (d = d_e) as -> by congruence.
  assert (le' ≠ lg') as Hne'.
  { intros Heq. assert (le = lg) as Hll.
    { eapply (copy_inj _ _ _ Hcopy); [done|]. by rewrite Heq. }
    eapply (finite_acyclic h lg d_g entity (VRef le));
      [by eapply skip_finite_section|done..|].
    rewrite Hll. constructor. }
  simpl. rewrite Hle'. simpl. rewrite (Hkeep le' _ Hne' Hcopy_e). simpl.
  rewrite lookup_fmap, Ht. simpl.
  set (new_gaz := from_dict (Gazetteer entity) hc (ren memo <$> d_e)).
  assert (∃ g, (if 0 <? n
                then dynamic_entity dynamic entity hc ≫= λ r0,
                       Some (de ←! r0; Ok (update_entities _update_entity hc new_gaz de))
                else Some (Ok new_gaz)) = Some (Ok g)) as [g ->].
  { destruct (0 <? n); [|eauto].
    destruct (returns_dynamic_entity entity hc) as [de ->]; [done..|]. simpl. eauto. }
  simpl. eexists. split; [done|].
  set (y := fresh (dom hc)).
  assert (y ∉ dom hc) as Hy by apply is_fresh.
  assert (∀ l d, hc !! l = Some d → l ≠ y) as Hny.
  { intros l d Hl ->. by eapply Hy, elem_of_dom_2. }
  split_and!.
  - apply map_subseteq_spec. intros l d Hl.
    assert (hc !! l = Some d) as Hl' by by eapply lookup_weaken.
    rewrite lookup_alter_ne, lookup_insert_ne; [done| |].
    + intros Heq. by eapply (Hny l).
    + intros <-. by eapply Hlg0, elem_of_dom_2.
  - rewrite lookup_alter_ne, lookup_insert_ne; [done| |done].
    rewrite Hwsd in Hw. intros Heq. by eapply (Hny ws).
  - intros y0 d Hy0 Hd0. rewrite lookup_alter_ne, lookup_insert_ne; [by apply Hkeep| |done].
    intros Heq. eapply (Hny y0); [by apply Hkeep|done].
  - exists (<[entity := VRef y]> gz). split.
    + rewrite lookup_alter_eq, lookup_insert_ne, Hgz; [done|].
      intros Heq. by eapply (Hny lg').
    + intros entity0 Hin. rewrite lookup_insert_ne by (by intros <-).
      apply Hrem. by right.
Qed.

Lemma returns_loop entities :
  NoDup entities → (∀ entity, entity ∈ entities → is_Some (dg !! entity)) →
  ∀ hc, run_inv h memo h1 ws d_g lg' entities hc →
  ∃ hf, entity_loop ws dynamic entities hc = Some (Ok (), hf).
Proof.
  induction 1 as [|entity rest Hnotin Hnd IH]; intros Hlisted hc Hinv; simpl.
  { eauto. }
  destruct (returns_entity entity rest hc) as (hn & -> & Hinv');
    [apply Hlisted; by left|done|done|].
  apply IH; [|done]. intros entity0 Hin. apply Hlisted. by right.
Qed.

Lemma returns_init entities : run_inv h memo h1 ws d_g lg' entities h1.
Proof.
  destruct (copy_obj _ _ _ Hcopy _ _ Hlg') as (_ & d & Hd & Hgz & _).
  assert (d = d_g) as -> by congruence.
  split_and!; [apply Hcopy|done|done|]. eauto.
Qed.
End returns.

(** On well-formed data the call returns: with a gazetteer section whose
    entries are dicts with an integer [total_entities], and a dynamic
    gazetteer section whose entries are dicts, no step raises, whatever
    entity types the dynamic resource lists. *)
Theorem ingest_returns (h : heap) (resource dynamic lg ldg : loc)
    (d_r d_g dyn dg : dict) :
  finite_value h (VRef resource) →
  h !! resource = Some d_r → d_r !! GAZETTEER_RSC = Some (VRef lg) →
  h !! lg = Some d_g → entries_counted h d_g →
  h !! dynamic = Some dyn → dyn !! GAZETTEER_RSC = Some (VRef ldg) →
  h !! ldg = Some dg → entries_dicts h dg →
  ∃ w h', ingest resource (Some dynamic) h = Some (Ok (VRef w), h').
Proof.
  intros Hfin Hr Hsec Hlg Hcounted Hdyn Hdsec Hdg Hdicts.
  destruct (deepcopy_total h resource Hfin) as (ws & memo & h1 & Hcopy & Hws & Hiso).
  destruct (copy_obj _ _ _ Hiso _ _ Hws) as (_ & d & Hd & _ & Hch).
  assert (d = d_r) as -> by congruence.
  pose proof (Hch _ _ Hsec) as [lg' Hlg']%elem_of_dom.
  unfold ingest_dynamic_gazetteer. rewrite Hcopy.
  rewrite (lookup_weaken _ _ _ _ Hdyn (copy_frame _ _ _ Hiso)). simpl.
  rewrite bool_decide_eq_false_2 by (intros ->; by rewrite lookup_empty in Hdsec).
  rewrite Hdsec, (lookup_weaken _ _ _ _ Hdg (copy_frame _ _ _ Hiso)). simpl.
  destruct (returns_loop h memo h1 resource ws lg lg' dynamic ldg d_r d_g dyn dg
              Hiso Hfin Hr Hsec Hlg Hws Hlg' Hcounted Hdyn Hdsec Hdg Hdicts
              (map_to_list dg).*1) with h1 as (hf & ->).
  - apply NoDup_fst_map_to_list.
  - intros entity [[k v] [-> Hin]]%list_elem_of_fmap.
    apply elem_of_map_to_list in Hin. simpl. eauto.
  - by eapply returns_init.
  - simpl. eauto.
Qed.

Section merge.
Variables (h : heap) (memo : gmap loc loc) (h1 : heap).
Variables (r ws lg lg' le le' dynamic ldg lde : loc) (entity : string) (n : Z).
Variables (d_r d_g d_e dyn dg de : dict).
Hypothesis Hcopy : is_copy h memo h1.
Hypothesis Hfin : finite_value h (VRef r).
Hypothesis Hr : h !! r = Some d_r.
Hypothesis Hsec : d_r !! GAZETTEER_RSC = Some (VRef lg).
Hypothesis Hlg : h !! lg = Some d_g.
Hypothesis Hentity : d_g !! entity = Some (VRef le).
Hypothesis Hle : h !! le = Some d_e.
Hypothesis Htotal : d_e !! "total_entities" = Some (VInt n).
Hypothesis Hpos : 0 < n.
Hypothesis Hws : memo !! r = Some ws.
Hypothesis Hlg' : memo !! lg = Some lg'.
Hypothesis Hle' : memo !! le = Some le'.
Hypothesis Hdyn : h !! dynamic = Some dyn.
Hypothesis Hdsec : dyn !! GAZETTEER_RSC = Some (VRef ldg).
Hypothesis Hdg : h !! ldg = Some dg.
Hypothesis Hdentity : dg !! entity = Some (VRef lde).
Hypothesis Hde : h !! lde = Some de.

Local Abbreviation merging :=
  (merge_inv Gazetteer from_dict _update_entity to_dict h h1 ws lg' entity le'
     (ren memo <$> d_e) de).






End merge.

End ingest_more.

Lemma ingest_nothing_to_merge_witness :
  ingest_dynamic_gazetteer sample_Gazetteer sample_from_dict sample_update_entity
    sample_to_dict 1%positive (Some 6%positive) sample_store
  = ingest_dynamic_gazetteer sample_Gazetteer sample_from_dict sample_update_entity
      sample_to_dict 1%positive None sample_store.
Proof.
  apply (ingest_nothing_to_merge sample_Gazetteer sample_from_dict
           sample_update_entity sample_to_dict sample_store 1%positive 6%positive
           {[ "paris" := VInt 7 ]}).
  - apply (finite_upto_sound 3). vm_compute. reflexivity.
  - vm_compute. reflexivity.
  - right. left. vm_compute. reflexivity.
Defined.

Lemma ingest_keeps_entity_types_witness :
  ∃ lw d_w lg' d_g',
    VRef 8%positive = VRef lw ∧ sample_final_store !! lw = Some d_w ∧
    dom d_w = dom sample_resource ∧
    d_w !! GAZETTEER_RSC = Some (VRef lg') ∧ sample_final_store !! lg' = Some d_g' ∧
    dom d_g' = dom sample_section.
Proof.
  apply (ingest_keeps_entity_types sample_Gazetteer sample_from_dict
           sample_update_entity sample_to_dict sample_store 1%positive
           (Some 4%positive) (VRef 8%positive) sample_final_store
           sample_resource sample_section 2%positive).
  - apply (finite_upto_sound 3). vm_compute. reflexivity.
  - vm_compute. reflexivity.
  - vm_compute. reflexivity.
  - vm_compute. reflexivity.
  - vm_compute. reflexivity.
Defined.

(** Object 3 of the sample store has no gazetteer section. *)
Lemma ingest_missing_section_witness :
  ∃ h', ingest_dynamic_gazetteer sample_Gazetteer sample_from_dict
          sample_update_entity sample_to_dict 3%positive (Some 4%positive) sample_store
        = Some (Raise (KeyError GAZETTEER_RSC), h').
Proof.
  apply (ingest_missing_section sample_Gazetteer sample_from_dict
           sample_update_entity sample_to_dict sample_store 3%positive 4%positive
           {[ "total_entities" := VInt 0; "name" := VStr "city" ]}
           {[ "gazetteers" := VRef 5%positive ]}
           {[ "city" := VRef 6%positive; "dish" := VRef 6%positive;
              "zip" := VRef 6%positive ]} 5%positive).
  - apply (finite_upto_sound 3). vm_compute. reflexivity.
  - vm_compute. reflexivity.
  - vm_compute. reflexivity.
  - vm_compute. reflexivity.
  - vm_compute. reflexivity.
  - vm_compute. reflexivity.
  - intros Heq. apply (f_equal (λ d : dict, d !! "city")) in Heq. vm_compute in Heq.
    discriminate.
Defined.

Lemma ingest_returns_witness :
  ∃ w h', ingest_dynamic_gazetteer sample_Gazetteer sample_from_dict
            sample_update_entity sample_to_dict 1%positive (Some 4%positive) sample_store
          = Some (Ok (VRef w), h').
Proof.
  apply (ingest_returns sample_Gazetteer sample_from_dict sample_update_entity
           sample_to_dict sample_store 1%positive 4%positive 2%positive 5%positive
           sample_resource sample_section
           {[ "gazetteers" := VRef 5%positive ]}
           {[ "city" := VRef 6%positive; "dish" := VRef 6%positive;
              "zip" := VRef 6%positive ]}).
  - apply (finite_upto_sound 3). vm_compute. reflexivity.
  - vm_compute. reflexivity.
  - vm_compute. reflexivity.
  - vm_compute. reflexivity.
  - intros entity e Hl. unfold sample_section in Hl.
    apply lookup_insert_Some in Hl as [[_ <-]|[_ [_ <-]%lookup_singleton_Some]].
    + exists 3%positive, {[ "total_entities" := VInt 0; "name" := VStr "city" ]}, 0.
      split_and!; vm_compute; reflexivity.
    + exists 7%positive, {[ "total_entities" := VInt 2; "name" := VStr "dish" ]}, 2.
      split_and!; vm_compute; reflexivity.
  - vm_compute. reflexivity.
  - vm_compute. reflexivity.
  - vm_compute. reflexivity.
  - intros entity v Hl.
    exists 6%positive, {[ "paris" := VInt 7 ]}.
    split; [|vm_compute; reflexivity].
    apply lookup_insert_Some in Hl as [[_ <-]|[_ Hl]]; [done|].
    apply lookup_insert_Some in Hl as [[_ <-]|[_ [_ <-]%lookup_singleton_Some]]; done.
Defined.

